(** * js-redis-registry: the synchronisation engine of [Registry]

    A shallow embedding of [src/redis-registry.ts].  The registry object is a
    record that is threaded through every method; each method returns the
    new registry together with the list of observable effects it performed,
    in program order (requests sent to redis, messages published, events
    emitted on the event bus, user callbacks invoked, an exception that
    leaves the method).

    Asynchrony is explicit: a method that starts a redis request returns the
    request as an effect that carries the continuation the source passes to
    the redis client; the continuation is run later, on whatever registry
    exists at that moment.

    The [store] of the class is a plain JavaScript object, [{}], that the
    source uses as a dictionary.  It is modelled as such: its own
    properties, and its prototype, which is [Object.prototype] until an
    assignment to [__proto__] replaces it.  Reading a key goes through the
    prototype chain, assigning to [__proto__] goes through the setter of
    [Object.prototype], and [this.store.hasOwnProperty(key)] looks the method
    up on the object itself, so it throws when the lookup gives something
    that is not a function.

    What is outside the repository is a parameter of the development:
    [JSON.parse], [JSON.stringify], the message codec of [js-binary-model],
    and two answers of the JavaScript run-time (class [Runtime]). *)

From Stdlib Require Import Ascii String.
From stdpp Require Import base option list strings pretty gmap fin_maps.

Set Warnings "-register-all".
Local Open Scope string_scope.
Local Open Scope Z_scope.
Local Open Scope list_scope.

(** ** JavaScript values *)

Module JS.

(** What [JSON.parse] can build: no [undefined], no [NaN], no sharing. *)
Inductive json : Type :=
  | JNull
  | JBool (b : bool)
  | JNum (n : Z)
  | JStr (s : string)
  | JArr (elems : list json)
  | JObj (fields : list (string * json)).

(** A value of the program: what a caller passes to [set], what
    [JSON.parse] returns, what a message carries.  Arrays and objects live on
    the heap: [VObject r c] is the reference [r] to an object whose contents
    are [c].  The registry never mutates a value it stores, so the contents
    travel with the reference.  Numbers are the integers, plus [NaN]. *)
Inductive value : Type :=
  | VUndefined
  | VNull
  | VBool (b : bool)
  | VNum (n : Z)
  | VNaN
  | VStr (s : string)
  | VObject (ref : nat) (content : json).

(** What reading a property can give: a value of the program, or a built-in
    of the run-time found on the prototype chain, named by where it lives
    (["Object.prototype.toString"], ["Object.prototype"]).  A built-in is
    never passed to the registry by the callers of the model. *)
Inductive any : Type :=
  | Val (v : value)
  | Native (name : string).

Coercion Val : value >-> any.

(** Argument lists, [f(a, b, c)]. *)
Notation "⟦ ⟧" := (@nil any) (format "⟦ ⟧").
Notation "⟦ x ⟧" := (@cons any x (@nil any)).
Notation "⟦ x ; y ; .. ; z ⟧" :=
  (@cons any x (@cons any y .. (@cons any z (@nil any)) ..)).

(** The value that evaluating a parsed JSON text yields, when a compound
    result is allocated at reference [r]. *)
Definition of_json (r : nat) (j : json) : value :=
  match j with
  | JNull => VNull
  | JBool b => VBool b
  | JNum n => VNum n
  | JStr s => VStr s
  | JArr _ | JObj _ => VObject r j
  end.

Definition allocates (j : json) : bool :=
  match j with
  | JArr _ | JObj _ => true
  | _ => false
  end.

(** [a === b] *)
Definition strict_eq (a b : any) : bool :=
  match a, b with
  | Val VUndefined, Val VUndefined => true
  | Val VNull, Val VNull => true
  | Val (VBool x), Val (VBool y) => bool_decide (x = y)
  | Val (VNum x), Val (VNum y) => bool_decide (x = y)
  | Val (VStr x), Val (VStr y) => bool_decide (x = y)
  | Val (VObject r1 _), Val (VObject r2 _) => bool_decide (r1 = r2)
  | Native m, Native n => bool_decide (m = n)
  | _, _ => false
  end.

(** [if (v) ...] *)
Definition truthy (v : value) : bool :=
  match v with
  | VUndefined | VNull | VNaN => false
  | VBool b => b
  | VNum n => negb (bool_decide (n = 0))
  | VStr s => negb (bool_decide (s = ""))
  | VObject _ _ => true
  end.

(** The contents of a value with the heap reference forgotten: two values
    are equal "by value" when they have the same contents. *)
Definition contents (v : value) : value :=
  match v with
  | VObject _ c => VObject 0 c
  | _ => v
  end.

Definition same_contents (a b : value) : Prop := contents a = contents b.

(** [args[i]]: reading past the end of an array gives [undefined]. *)
Definition index (args : list value) (i : nat) : value :=
  default VUndefined (args !! i).

(** The [i]-th parameter of a function called with [args]. *)
Definition parameter (args : list any) (i : nat) : any :=
  default (Val VUndefined) (args !! i).

(** *** What the run-time answers

    Two answers of the JavaScript engine are left open: the text of a number
    that prints in exponent form (it depends on the floating-point value),
    and the property lookup on an array or object of the program (it
    depends on the methods of [Array.prototype] and on the identity of
    nested objects, which the [json] contents do not record). *)
Class Runtime : Type := {
  (** [String(n)] for an integer [n] of absolute value [10^21] or more. *)
  exponent_form : Z -> string;
  (** [o[k]] for the array or plain object [o] at reference [r] with
      contents [c]: own properties, then [Array.prototype] for an array,
      then [Object.prototype]; the accessor [__proto__] of
      [Object.prototype] apart. *)
  Get_data : nat -> json -> string -> any
}.

Section Conversions.

Context {rt : Runtime}.

(** [String(n)] for an integer. *)
Definition number_to_string (n : Z) : string :=
  if bool_decide (Z.abs n < 10 ^ 21) then pretty n else exponent_form n.

(** [String(j)] for a value decoded from JSON, as used when such a value is
    a property key: [Array.prototype.join] prints [null] elements as the
    empty string, and a plain object prints as [[object Object]]. *)
Fixpoint json_to_string (j : json) : string :=
  match j with
  | JNull => "null"
  | JBool true => "true"
  | JBool false => "false"
  | JNum n => number_to_string n
  | JStr s => s
  | JArr elems =>
      String.concat ","
        (List.map (fun e => match e with
                            | JNull => ""
                            | _ => json_to_string e
                            end) elems)
  | JObj _ => "[object Object]"
  end.

(** [ToPropertyKey(v)] for the values of the program. *)
Definition to_property_key (v : value) : string :=
  match v with
  | VUndefined => "undefined"
  | VNull => "null"
  | VBool true => "true"
  | VBool false => "false"
  | VNum n => number_to_string n
  | VNaN => "NaN"
  | VStr s => s
  | VObject _ c => json_to_string c
  end.

End Conversions.

(** *** A plain object used as a dictionary *)

(** The functions that [Object.prototype] holds, by property name; beside
    them it holds the accessor [__proto__]. *)
Definition Object_prototype_functions : list string :=
  ["constructor"; "hasOwnProperty"; "isPrototypeOf"; "propertyIsEnumerable";
   "toLocaleString"; "toString"; "valueOf";
   "__defineGetter__"; "__defineSetter__";
   "__lookupGetter__"; "__lookupSetter__"].

(** The prototype of an object created by [{}]: [Object.prototype], until
    the setter of [__proto__] replaces it by [null] or by an array or object
    of the program. *)
Inductive Proto : Type :=
  | ProtoObject
  | ProtoNull
  | ProtoData (ref : nat) (content : json).

Record Obj : Type := mkObj {
  own : gmap string value;
  proto : Proto
}.

(** [{}] *)
Global Instance Obj_empty : Empty Obj := mkObj ∅ ProtoObject.

(** Whether an array or plain object of the program has the own property
    [k]: a field of the object; an index or [length] of the array. *)
Definition has_field (c : json) (k : string) : bool :=
  match c with
  | JObj fields => bool_decide (k ∈ fields.*1)
  | JArr elems =>
      bool_decide (k = "length") ||
      existsb (fun i => bool_decide (pretty i = k)) (seq 0 (length elems))
  | _ => false
  end.

(** Whether a lookup of [__proto__] that starts at prototype [p] arrives at
    the accessor of [Object.prototype]: not when the chain is empty, and not
    when an object on the way has a field of that name. *)
Definition reaches_accessor (p : Proto) : bool :=
  match p with
  | ProtoObject => true
  | ProtoNull => false
  | ProtoData _ c => negb (has_field c "__proto__")
  end.

Section Lookup.

Context {rt : Runtime}.

(** What the prototype chain gives for [k] when the object has no own
    property [k]. *)
Definition inherited (p : Proto) (k : string) : any :=
  match p with
  | ProtoObject =>
      if bool_decide (k = "__proto__") then Native "Object.prototype"
      else if bool_decide (k ∈ Object_prototype_functions)
           then Native ("Object.prototype." +:+ k)
           else VUndefined
  | ProtoNull => VUndefined
  | ProtoData r c =>
      if bool_decide (k = "__proto__") && negb (has_field c k)
      then VObject r c                     (* the getter: the prototype *)
      else Get_data r c k
  end.

(** [o[k]] *)
Definition obj_get (k : string) (o : Obj) : any :=
  match own o !! k with
  | Some v => Val v
  | None => inherited (proto o) k
  end.

End Lookup.

(** [o[k] = v].  When [k] is [__proto__], the object has no own property of
    that name and the lookup arrives at the accessor, the setter runs: it
    replaces the prototype when [v] is an object or [null] and does nothing
    otherwise.  In every other case the own property is written. *)
Definition obj_set (k : string) (v : value) (o : Obj) : Obj :=
  if bool_decide (k = "__proto__") && bool_decide (own o !! k = None)
     && reaches_accessor (proto o)
  then match v with
       | VObject r c => mkObj (own o) (ProtoData r c)
       | VNull => mkObj (own o) ProtoNull
       | _ => o
       end
  else mkObj (<[k := v]> (own o)) (proto o).

(** [delete o[k]] *)
Definition obj_delete (k : string) (o : Obj) : Obj :=
  mkObj (delete k (own o)) (proto o).

(** Whether [o.hasOwnProperty] is the function of [Object.prototype]: the
    object has no own property of that name (a value of the program is not
    a function), and neither has an object on the way to
    [Object.prototype]. *)
Definition finds_hasOwnProperty (o : Obj) : bool :=
  match own o !! "hasOwnProperty" with
  | Some _ => false
  | None =>
      match proto o with
      | ProtoObject => true
      | ProtoNull => false
      | ProtoData _ c => negb (has_field c "hasOwnProperty")
      end
  end.

(** [o.hasOwnProperty(k)]: [None] when the call throws [TypeError]. *)
Definition obj_hasOwnProperty (k : string) (o : Obj) : option bool :=
  if finds_hasOwnProperty o
  then Some (bool_decide (is_Some (own o !! k)))
  else None.

End JS.

Export JS.

(** ** The registry object, its closures and its effects *)

(** User code is modelled by what it can do to the registry while it runs:
    a list of calls to the public methods.  [CallDispose h] calls the
    function that the [h]-th call of [watch] returned. *)
Inductive Call : Type :=
  | CallSet (key : string) (v : value)
  | CallClear (key : string)
  | CallWatch (key : string) (onModified : Callback)
  | CallDispose (h : nat)
  | CallPull (onSuccess : option OnSuccess)
  | CallStartMonitor
  | CallStopMonitor
with Callback : Type :=
  | UserCallback (id : nat) (body : any -> list Call)
with OnSuccess : Type :=
  | EmitReady                         (* [() => this.emit('ready')] *)
  | UserFunction (body : list Call).

Definition callback_id (cb : Callback) : nat :=
  match cb with UserCallback id _ => id end.

Definition callback_body (cb : Callback) : any -> list Call :=
  match cb with UserCallback _ body => body end.

(** The variables captured by the closures that one call of [watch]
    creates. *)
Record WatchEnv : Type := mkWatchEnv {
  w_key : string;
  w_onModified : Callback;
  w_ended : bool
}.

(** The two closures of the [h]-th call of [watch]. *)
Inductive Listener : Type :=
  | ListenerSet (h : nat)
  | ListenerClear (h : nat).

Global Instance Listener_eq_dec : EqDecision Listener.
Proof. solve_decision. Defined.

(** The function passed to the redis client together with a request. *)
Inductive Continuation : Type :=
  | OnHgetall (onSuccess : option OnSuccess)
  | OnHset (key : string) (v : value) (previous : any)
  | OnHdel (key : string).

(** [Throw]: an exception leaves the method; it is the last effect of the
    method and of the callers it passes through. *)
Inductive Effect : Type :=
  | Hgetall (hashKey : string) (k : Continuation)
  | Hset (hashKey field : string) (text : option string) (k : Continuation)
  | Hdel (hashKey field : string) (k : Continuation)
  | Publish (channel payload : string)
  | Quit
  | Subscribe (channel : string)
  | SubscriberQuit
  | Emit (event : string) (args : list any)
  | Invoke (h : nat) (cb : nat) (arg : any)        (* [onModified(arg)] *)
  | InvokeOnSuccess
  | Disposed (h : nat)            (* the disposer of watch [h] was called *)
  | Throw.

(** A decoded message: [sender] is a string, [arguments] is decoded from
    JSON. *)
Record Message : Type := mkMessage {
  m_sender : string;
  m_arguments : list json
}.

(** [heap_next] is the next free heap reference; it is not a field of the
    class, it stands for the allocator of the run-time. *)
Record Registry : Type := mkRegistry {
  keyspace : string;
  uniqId : string;
  store : Obj;
  subscriber : bool;
  listeners : list (string * Listener);
  watches : list WatchEnv;
  heap_next : nat
}.

Definition with_store (s : Obj) (st : Registry) : Registry :=
  mkRegistry (keyspace st) (uniqId st) s (subscriber st) (listeners st)
             (watches st) (heap_next st).

Definition with_subscriber (b : bool) (st : Registry) : Registry :=
  mkRegistry (keyspace st) (uniqId st) (store st) b (listeners st)
             (watches st) (heap_next st).

Definition with_listeners (ls : list (string * Listener)) (st : Registry)
  : Registry :=
  mkRegistry (keyspace st) (uniqId st) (store st) (subscriber st) ls
             (watches st) (heap_next st).

Definition with_watches (ws : list WatchEnv) (st : Registry) : Registry :=
  mkRegistry (keyspace st) (uniqId st) (store st) (subscriber st)
             (listeners st) ws (heap_next st).

Definition with_heap_next (n : nat) (st : Registry) : Registry :=
  mkRegistry (keyspace st) (uniqId st) (store st) (subscriber st)
             (listeners st) (watches st) n.

(** ** Statements: state passing with a log of effects *)

Definition Action : Type := Registry -> Registry * list Effect.

Definition skip : Action := fun st => (st, []).

Definition effect (e : Effect) : Action := fun st => (st, [e]).

Definition modify (f : Registry -> Registry) : Action := fun st => (f st, []).

(** The log of a statement that an exception has left. *)
Definition thrown (tr : list Effect) : bool :=
  match last tr with
  | Some Throw => true
  | _ => false
  end.

(** [a; b]: when an exception leaves [a], [b] is not run. *)
Definition andthen (a b : Action) : Action :=
  fun st =>
    let '(st1, e1) := a st in
    if thrown e1 then (st1, e1)
    else
      let '(st2, e2) := b st1 in
      (st2, e1 ++ e2).

Declare Scope action_scope.
Delimit Scope action_scope with act.
Bind Scope action_scope with Action.
Notation "a ;; b" := (andthen a b%act)
  (at level 100, b at level 200, right associativity) : action_scope.
Local Open Scope action_scope.

Definition for_each {A} (l : list A) (f : A -> Action) : Action :=
  foldr (fun x k => f x ;; k) skip l.

(** One turn of the event loop after the other: an exception that leaves a
    turn ends that turn only. *)
Definition turn_then (a b : Action) : Action :=
  fun st =>
    let '(st1, e1) := a st in
    let '(st2, e2) := b st1 in
    (st2, e1 ++ e2).

Definition ChannelConfigSet : string := "ConfigSet".
Definition ChannelConfigClear : string := "ConfigClear".

(** ** The event bus inherited from [events.EventEmitter] *)

(** [removeListener] takes out the most recently added occurrence. *)
Fixpoint remove_first {A} `{EqDecision A} (x : A) (l : list A) : list A :=
  match l with
  | [] => []
  | y :: l' => if decide (x = y) then l' else y :: remove_first x l'
  end.

Definition removeListener (event : string) (l : Listener) : Action :=
  modify (fun st =>
    with_listeners
      (reverse (remove_first (event, l) (reverse (listeners st)))) st).

Definition on (event : string) (l : Listener) : Action :=
  modify (fun st => with_listeners (listeners st ++ [(event, l)]) st).

(** The listeners that [emit] is going to call: the array registered under
    the event name, copied before the first call. *)
Definition listeners_of (event : string) (st : Registry) : list Listener :=
  (filter (fun p => p.1 = event) (listeners st)).*2.

(** ** The class [Registry] *)

Section Registry.

Context {rt : Runtime}.

(** [JSON.parse]: [None] when it throws. *)
Variable JSON_parse : string -> option json.
(** [JSON.stringify]: [None] when it returns [undefined]. *)
Variable JSON_stringify : value -> option string.
(** [MessageModel.encode({sender, arguments}).toString(MessageEncoding)] *)
Variable MessageModel_encode : string -> list any -> string.
(** [MessageModel.decode(Buffer.from(message, MessageEncoding))]: [None]
    when it throws. *)
Variable MessageModel_decode : string -> option Message.

Definition keyConfig (st : Registry) : string := "config:" +:+ keyspace st.

Definition keySpaceChannel (channel : string) (st : Registry) : string :=
  channel +:+ ":" +:+ keyspace st.

(** [this.store[key]] *)
Definition read (key : string) (st : Registry) : any :=
  obj_get key (store st).

(** *** The public methods that user code can call while it runs *)

Definition pull (onSuccess : option OnSuccess) : Action :=
  modify (with_store ∅) ;;
  fun st => (st, [Hgetall (keyConfig st) (OnHgetall onSuccess)]).

Definition watch (key : string) (onModified : Callback) : Action :=
  fun st =>
    let h := length (watches st) in
    (modify (fun st =>
       with_watches (watches st ++ [mkWatchEnv key onModified false]) st) ;;
     on "set" (ListenerSet h) ;;
     on "clear" (ListenerClear h)) st.

(** The function returned by the [h]-th call of [watch]; it exists once
    that call has been made.  The call is logged. *)
Definition dispose (h : nat) : Action :=
  fun st =>
    match watches st !! h with
    | Some w =>
        ((fun st =>
            (with_watches
               (<[h := mkWatchEnv (w_key w) (w_onModified w) true]> (watches st))
               st,
             [Disposed h])) ;;
         removeListener "set" (ListenerSet h) ;;
         removeListener "clear" (ListenerClear h)) st
    | None => (st, [])
    end.

(** [None] when the call throws. *)
Definition get (key : string) (defaultValue : value) (st : Registry)
  : option any :=
  match obj_hasOwnProperty key (store st) with
  | None => None
  | Some false => Some (Val defaultValue)
  | Some true => Some (read key st)
  end.

Definition set (key : string) (v : value) : Action :=
  fun st =>
    let previous := read key st in
    if strict_eq previous v then (st, [])
    else
      (with_store (obj_set key v (store st)) st,
       [Hset (keyConfig st) key (JSON_stringify v) (OnHset key v previous)]).

Definition clear (key : string) : Action :=
  fun st =>
    match obj_hasOwnProperty key (store st) with
    | None => (st, [Throw])
    | Some present =>
        let st' := if present
                   then with_store (obj_delete key (store st)) st
                   else st in
        (st', [Hdel (keyConfig st') key (OnHdel key)])
    end.

Definition startMonitor : Action :=
  fun st =>
    if subscriber st then (st, [])
    else
      (with_subscriber true st,
       [Subscribe (keySpaceChannel ChannelConfigSet st);
        Subscribe (keySpaceChannel ChannelConfigClear st)]).

Definition stopMonitor : Action :=
  fun st =>
    if subscriber st then (with_subscriber false st, [SubscriberQuit])
    else (st, []).

Definition perform (c : Call) : Action :=
  match c with
  | CallSet key v => set key v
  | CallClear key => clear key
  | CallWatch key cb => watch key cb
  | CallDispose h => dispose h
  | CallPull onSuccess => pull onSuccess
  | CallStartMonitor => startMonitor
  | CallStopMonitor => stopMonitor
  end.

(** *** Emitting events *)

(** [onModified(arg)], called by a closure of the [h]-th watch.  The
    callback does not catch what the methods it calls throw. *)
Definition invoke (h : nat) (cb : Callback) (arg : any) : Action :=
  effect (Invoke h (callback_id cb) arg) ;;
  for_each (callback_body cb arg) perform.

(** [listenerSet(_key, value, prevVal)] and [listenerClear(_key)], applied
    to the arguments of the event. *)
Definition run_listener (l : Listener) (args : list any) : Action :=
  fun st =>
    match l with
    | ListenerSet h =>
        match watches st !! h with
        | Some w =>
            if w_ended w then (st, [])
            else if strict_eq (VStr (w_key w)) (parameter args 0)
                 then invoke h (w_onModified w) (parameter args 1) st
                 else (st, [])
        | None => (st, [])
        end
    | ListenerClear h =>
        match watches st !! h with
        | Some w =>
            if w_ended w then (st, [])
            else if strict_eq (VStr (w_key w)) (parameter args 0)
                 then invoke h (w_onModified w) VUndefined st
                 else (st, [])
        | None => (st, [])
        end
    end.

(** [this.emit(event, ...args)]: the listeners registered under [event]
    are called in the order of their registration; an exception that leaves
    one of them leaves [emit].  Only the listeners that the class itself
    registers (those of [watch]) are part of the registry; what outside code
    registers on the bus observes the [Emit] effect.  The exception that the
    bus raises for an ["error"] event without listener is not modelled. *)
Definition emit (event : string) (args : list any) : Action :=
  fun st =>
    (effect (Emit event args) ;;
     for_each (listeners_of event st) (fun l => run_listener l args)) st.

Definition emitError (err : value) : Action := emit "error" ⟦err⟧.

Definition emitUpdated : Action := emit "updated" ⟦ ⟧.

Definition emitCleared (key : value) : Action :=
  emit "cleared" ⟦key⟧ ;; emitUpdated.

Definition emitSet (key v : value) (previousValue : any) : Action :=
  emit "set" ⟦key; v; previousValue⟧ ;; emitUpdated.

Definition publish (channel : string) (args : list any) : Action :=
  fun st => (st, [Publish channel (MessageModel_encode (uniqId st) args)]).

Definition call_onSuccess (f : OnSuccess) : Action :=
  match f with
  | EmitReady => emit "ready" ⟦ ⟧
  | UserFunction body => effect InvokeOnSuccess ;; for_each body perform
  end.

(** *** Bootstrap *)

Definition applyEncodedKeyValue (key text : string) : Action :=
  fun st =>
    match JSON_parse text with
    | Some j =>
        (with_heap_next (if allocates j then S (heap_next st) else heap_next st)
           (with_store (obj_set key (of_json (heap_next st) j) (store st)) st),
         [])
    | None => (st, [])
    end.

(** [Object.keys(hash)], for the reply object whose own properties are
    [hash]. *)
Definition Object_keys (hash : gmap string string) : list string :=
  (map_to_list hash).*1.

(** [key => this.applyEncodedKeyValue(key, hash[key])]; [hash[key]] is
    there for every key of [Object.keys(hash)]. *)
Definition apply_field (hash : gmap string string) (key : string) : Action :=
  match hash !! key with
  | Some text => applyEncodedKeyValue key text
  | None => skip
  end.

(** The function that [pull] passes to [client.hgetall]. *)
Definition hgetall_callback (onSuccess : option OnSuccess)
    (err : value) (hash : option (gmap string string)) : Action :=
  effect Quit ;;
  if truthy err then emitError err
  else
    (match hash with
     | Some h => for_each (Object_keys h) (apply_field h)
     | None => skip
     end ;;
     emitUpdated ;;
     match onSuccess with
     | Some f => call_onSuccess f
     | None => skip
     end).

(** *** Background persistence *)

(** The function that [set] passes to [client.hset]. *)
Definition hset_callback (key : string) (v : value) (previous : any)
    (err : value) : Action :=
  (fun st =>
     publish (keySpaceChannel ChannelConfigSet st)
             ⟦VStr key; v; previous⟧ st) ;;
  effect Quit ;;
  if truthy err then emitError err
  else emitSet (VStr key) v previous.

(** The function that [clear] passes to [client.hdel]. *)
Definition hdel_callback (key : string) (err : value) : Action :=
  (fun st => publish (keySpaceChannel ChannelConfigClear st) ⟦VStr key⟧ st) ;;
  effect Quit ;;
  if truthy err then emitError err
  else emitCleared (VStr key).

(** Running a continuation on the reply of redis. *)
Definition resume (k : Continuation) (err : value)
    (hash : option (gmap string string)) : Action :=
  match k with
  | OnHgetall onSuccess => hgetall_callback onSuccess err hash
  | OnHset key v previous => hset_callback key v previous err
  | OnHdel key => hdel_callback key err
  end.

(** *** Inbound broadcasts *)

(** The decoded arguments, allocated one after the other from [r]. *)
Definition decoded_arguments (r : nat) (args : list json) : list value :=
  imap (fun i j => of_json (r + i) j) args.

Definition onSubscriberMessage (channel message : string) : Action :=
  fun st =>
    match MessageModel_decode message with
    | None => (st, [Throw])
    | Some dMessage =>
        let dSender := m_sender dMessage in
        if bool_decide (dSender = uniqId st) then (st, [])
        else
          let dArgs := decoded_arguments (heap_next st) (m_arguments dMessage) in
          let st := with_heap_next
                      (heap_next st + length (m_arguments dMessage))%nat st in
          let keyName := index dArgs 0 in
          if bool_decide (channel = keySpaceChannel ChannelConfigSet st) then
            let newValue := index dArgs 1 in
            let prevRValue := index dArgs 2 in
            let prevLValue := read (to_property_key keyName) st in
            (modify (fun st =>
               with_store
                 (obj_set (to_property_key keyName) newValue (store st)) st) ;;
             emitSet keyName newValue prevLValue) st
          else if bool_decide (channel = keySpaceChannel ChannelConfigClear st) then
            (modify (fun st =>
               with_store
                 (obj_delete (to_property_key keyName) (store st)) st) ;;
             emitCleared keyName) st
          else (st, [])
    end.

(** *** Construction *)

(** [new Registry(clientConfig, keyspace)], where [id] is what [uuid()]
    returns. *)
Definition construct (id ks : string) : Registry * list Effect :=
  pull (Some EmitReady) (mkRegistry ks id ∅ false [] [] 0).

(** *** Everything that can happen to a registry *)

Inductive Input : Type :=
  | Api (c : Call)
  | Reply (k : Continuation) (err : value) (hash : option (gmap string string))
  | Inbound (channel message : string)
  | ClientError (err : value).      (* the relay installed by [getClient] *)

Definition step (i : Input) : Action :=
  match i with
  | Api c => perform c
  | Reply k err hash => resume k err hash
  | Inbound channel message => onSubscriberMessage channel message
  | ClientError err => emitError err
  end.

(** The inputs are handled one turn after the other. *)
Definition run (inputs : list Input) : Action :=
  foldr (fun i k => turn_then (step i) k) skip inputs.

End Registry.

(** ** A platform to run the model on

    The theorems below hold for every [JSON.parse], [JSON.stringify], codec
    and run-time.  To evaluate the model on examples, this module gives one
    platform: JSON restricted to integers and to strings without escape
    sequences, a codec that writes the sender, a bar, and the arguments as a
    JSON array, and a run-time whose arrays have the methods listed in
    [Array_prototype_functions]. *)

Module Demo.

(** The double quote. *)
Definition dquote : ascii := ascii_of_nat 34.
Definition backslash : ascii := ascii_of_nat 92.

Definition quoted (s : string) : string :=
  String dquote s +:+ String dquote EmptyString.

Fixpoint print_json (j : json) : string :=
  match j with
  | JNull => "null"
  | JBool true => "true"
  | JBool false => "false"
  | JNum n => pretty n
  | JStr s => quoted s
  | JArr elems => "[" +:+ String.concat "," (List.map print_json elems) +:+ "]"
  | JObj fields =>
      "{" +:+ String.concat ","
                (List.map (fun p => quoted p.1 +:+ ":" +:+ print_json p.2)
                          fields) +:+ "}"
  end.

(** Inside an array, [undefined], [NaN] and a function are written [null];
    [Object.prototype] has no enumerable property. *)
Definition print_element (a : any) : string :=
  match a with
  | Val (VUndefined | VNull | VNaN) => "null"
  | Val (VBool b) => print_json (JBool b)
  | Val (VNum n) => print_json (JNum n)
  | Val (VStr s) => print_json (JStr s)
  | Val (VObject _ c) => print_json c
  | Native "Object.prototype" => "{}"
  | Native _ => "null"
  end.

Definition stringify (v : value) : option string :=
  match v with
  | VUndefined => None
  | _ => Some (print_element v)
  end.

Definition is_digit (c : ascii) : bool :=
  let n := nat_of_ascii c in (48 <=? n)%nat && (n <=? 57)%nat.

Fixpoint read_digits (acc : Z) (s : string) : Z * string :=
  match s with
  | String c s' =>
      if is_digit c
      then read_digits (10 * acc + Z.of_nat (nat_of_ascii c - 48)) s'
      else (acc, s)
  | EmptyString => (acc, s)
  end.

Fixpoint read_chars (s : string) : option (string * string) :=
  match s with
  | String c s' =>
      if Ascii.eqb c dquote then Some (EmptyString, s')
      else if Ascii.eqb c backslash then None
      else match read_chars s' with
           | Some (body, rest) => Some (String c body, rest)
           | None => None
           end
  | EmptyString => None
  end.

Definition strip_prefix (p s : string) : option string :=
  if String.prefix p s
  then Some (String.substring (String.length p)
                              (String.length s - String.length p) s)
  else None.

(** A recursive-descent parser; [fuel] bounds the depth of the calls.  Of
    two fields of one name, the object keeps the later one. *)
Fixpoint parse_value (fuel : nat) (s : string) : option (json * string) :=
  match fuel with
  | O => None
  | S fuel =>
      match s with
      | String "n" _ => rest ← strip_prefix "null" s; Some (JNull, rest)
      | String "t" _ => rest ← strip_prefix "true" s; Some (JBool true, rest)
      | String "f" _ => rest ← strip_prefix "false" s; Some (JBool false, rest)
      | String "034" s' => '(body, rest) ← read_chars s'; Some (JStr body, rest)
      | String "-" (String c s' as t) =>
          if is_digit c
          then let '(n, rest) := read_digits 0 t in Some (JNum (- n), rest)
          else None
      | String "[" (String "]" rest) => Some (JArr [], rest)
      | String "[" s' =>
          '(elems, rest) ← parse_elements fuel s'; Some (JArr elems, rest)
      | String "{" (String "}" rest) => Some (JObj [], rest)
      | String "{" s' =>
          '(fields, rest) ← parse_members fuel s';
          Some (JObj (foldr (fun p acc =>
                               if bool_decide (p.1 ∈ acc.*1) then acc
                               else p :: acc) [] fields), rest)
      | String c _ =>
          if is_digit c
          then let '(n, rest) := read_digits 0 s in Some (JNum n, rest)
          else None
      | EmptyString => None
      end
  end
with parse_elements (fuel : nat) (s : string)
  : option (list json * string) :=
  match fuel with
  | O => None
  | S fuel =>
      '(j, rest) ← parse_value fuel s;
      match rest with
      | String "," rest' =>
          '(js, rest'') ← parse_elements fuel rest'; Some (j :: js, rest'')
      | String "]" rest' => Some ([j], rest')
      | _ => None
      end
  end
with parse_members (fuel : nat) (s : string)
  : option (list (string * json) * string) :=
  match fuel with
  | O => None
  | S fuel =>
      match s with
      | String "034" s' =>
          '(name, rest) ← read_chars s';
          match rest with
          | String ":" rest' =>
              '(j, rest'') ← parse_value fuel rest';
              match rest'' with
              | String "," more =>
                  '(fs, rest''') ← parse_members fuel more;
                  Some ((name, j) :: fs, rest''')
              | String "}" rest''' => Some ([(name, j)], rest''')
              | _ => None
              end
          | _ => None
          end
      | _ => None
      end
  end.

Definition parse (s : string) : option json :=
  match parse_value (2 * String.length s + 2) s with
  | Some (j, "") => Some j
  | _ => None
  end.

Definition encode (sender : string) (args : list any) : string :=
  sender +:+ "|" +:+
  "[" +:+ String.concat "," (List.map print_element args) +:+ "]".

Fixpoint split_bar (s : string) : option (string * string) :=
  match s with
  | String c s' =>
      if Ascii.eqb c "|"%char then Some ("", s')
      else '(a, b) ← split_bar s'; Some (String c a, b)
  | EmptyString => None
  end.

Definition decode (message : string) : option Message :=
  '(sender, body) ← split_bar message;
  match parse body with
  | Some (JArr args) => Some (mkMessage sender args)
  | _ => None
  end.

(** The digits of [n], a point after the first one, the zeros at the end
    left out, and the exponent. *)
Fixpoint drop_zeros (s : string) : string :=
  match s with
  | EmptyString => EmptyString
  | String c s' =>
      match drop_zeros s' with
      | EmptyString => if Ascii.eqb c "0"%char then EmptyString
                       else String c EmptyString
      | t => String c t
      end
  end.

Definition exponent_form (n : Z) : string :=
  let digits := pretty (Z.abs n) in
  let mantissa :=
    match digits with
    | String d rest =>
        match drop_zeros rest with
        | EmptyString => String d EmptyString
        | t => String d ("." +:+ t)
        end
    | EmptyString => EmptyString
    end in
  (if bool_decide (n < 0) then "-" else "") +:+ mantissa +:+ "e+" +:+
  pretty (String.length digits - 1)%nat.

Definition Array_prototype_functions : list string :=
  ["concat"; "every"; "filter"; "forEach"; "indexOf"; "join"; "lastIndexOf";
   "map"; "pop"; "push"; "reduce"; "reduceRight"; "reverse"; "shift";
   "slice"; "some"; "sort"; "splice"; "toLocaleString"; "toString";
   "unshift"; "constructor"].

Definition of_Object_prototype (k : string) : any :=
  if bool_decide (k ∈ Object_prototype_functions)
  then Native ("Object.prototype." +:+ k)
  else VUndefined.

(** Nested arrays and objects are allocated right after their parent. *)
Definition Get_data (r : nat) (c : json) (k : string) : any :=
  match c with
  | JObj fields =>
      match last (filter (fun p => p.1 = k) fields) with
      | Some p => of_json (S r) p.2
      | None => of_Object_prototype k
      end
  | JArr elems =>
      if bool_decide (k = "length") then VNum (Z.of_nat (length elems))
      else
        match list_find (fun i => pretty i = k) (seq 0 (length elems)) with
        | Some (i, _) => of_json (S r) (default JNull (elems !! i))
        | None =>
            if bool_decide (k ∈ Array_prototype_functions)
            then Native ("Array.prototype." +:+ k)
            else of_Object_prototype k
        end
  | _ => of_Object_prototype k
  end.

Global Instance runtime : Runtime := {|
  JS.exponent_form := exponent_form;
  JS.Get_data := Get_data
|}.

End Demo.

(** ** Reading a log *)

(** The events emitted on the bus, in order. *)
Definition emitted (tr : list Effect) : list (string * list any) :=
  omap (fun e => match e with
                 | Emit event args => Some (event, args)
                 | _ => None
                 end) tr.

(** The watches whose callback was invoked, in order. *)
Definition handles_invoked (tr : list Effect) : list nat :=
  omap (fun e => match e with
                 | Invoke h _ _ => Some h
                 | _ => None
                 end) tr.

(** An effect that is neither an emission, nor the invocation of a watch
    callback, nor the call of a disposer. *)
Definition passive (e : Effect) : Prop :=
  match e with
  | Emit _ _ | Invoke _ _ _ | Disposed _ => False
  | _ => True
  end.

(** The class registers listeners for ["set"] and ["clear"] only. *)
Definition wf_listeners (st : Registry) : Prop :=
  Forall (fun p => p.1 = "set" \/ p.1 = "clear") (listeners st).

(** The [ended] flag of the [h]-th watch is up. *)
Definition ended (h : nat) (st : Registry) : Prop :=
  exists w, watches st !! h = Some w /\ w_ended w = true.

(** [R] holds of the outcome of [a], whatever registry [a] starts on. *)
Definition satisfies (R : Registry -> Registry * list Effect -> Prop)
    (a : Action) : Prop :=
  forall st, R st (a st).

(** The outcome holds no emission. *)
Definition silent (st : Registry) (out : Registry * list Effect) : Prop :=
  emitted out.2 = [].

(** The outcome keeps [wf_listeners]. *)
Definition keeps_wf (st : Registry) (out : Registry * list Effect) : Prop :=
  wf_listeners st -> wf_listeners out.1.

(** In the log [tr], the callback of watch [h] is not invoked after the
    disposer of [h] has been called. *)
Definition respects (h : nat) (tr : list Effect) : Prop :=
  forall tr1 tr2, tr = tr1 ++ Disposed h :: tr2 -> h ∉ handles_invoked tr2.

(** What every action does with respect to watch [h]: started when the
    flag is up, it leaves the flag up and does not invoke the callback; its
    log respects the disposal; and once the disposer has been called in the
    log, the flag is up at the end. *)
Definition quiet_after (h : nat) (st : Registry)
    (out : Registry * list Effect) : Prop :=
  (ended h st -> ended h out.1 /\ h ∉ handles_invoked out.2) /\
  respects h out.2 /\
  (Disposed h ∈ out.2 -> ended h out.1).

(** A value that [===] compares by what it is: not an object, not [NaN]. *)
Definition primitive (v : value) : Prop :=
  match v with
  | VObject _ _ | VNaN => False
  | _ => True
  end.

(** A key that [Object.prototype] has no property for. *)
Definition ordinary (k : string) : Prop :=
  k <> "__proto__" /\ k ∉ Object_prototype_functions.

(** The mirror object as [{}] creates it, as far as the lookups go: its
    prototype is [Object.prototype] and it has no own property
    [hasOwnProperty]. *)
Definition intact (o : Obj) : Prop :=
  proto o = ProtoObject /\ own o !! "hasOwnProperty" = None.

(** What the setter of [__proto__] makes of the prototype when it is given
    [v]. *)
Definition proto_set_to (v : value) (p : Proto) : Proto :=
  match v with
  | VObject r c => ProtoData r c
  | VNull => ProtoNull
  | _ => p
  end.

(** What the mirror holds for [key], up to heap references, once the field
    [key] of the reply has been applied.  A field named [__proto__] never
    becomes a key of the mirror [pull] created: assigning to it goes through
    the setter of [Object.prototype]. *)
Definition parsed (JSON_parse : string -> option json)
    (hash : gmap string string) (key : string) : option value :=
  if bool_decide (key = "__proto__") then None
  else of_json 0 <$> (hash !! key ≫= JSON_parse).

(** What the log shows first when the completion callback is called. *)
Definition onSuccess_mark (f : OnSuccess) : Effect :=
  match f with
  | EmitReady => Emit "ready" ⟦ ⟧
  | UserFunction _ => InvokeOnSuccess
  end.

(** The messages published, in order: channel and payload. *)
Definition published (tr : list Effect) : list (string * string) :=
  omap (fun e => match e with
                 | Publish channel payload => Some (channel, payload)
                 | _ => None
                 end) tr.

(** The number of channel subscriptions and of subscriber disconnections. *)
Definition subscribes (tr : list Effect) : nat :=
  length (omap (fun e => match e with
                         | Subscribe c => Some c
                         | _ => None
                         end) tr).

Definition subscriber_quits (tr : list Effect) : nat :=
  length (omap (fun e => match e with
                         | SubscriberQuit => Some tt
                         | _ => None
                         end) tr).

(** The watch a closure belongs to. *)
Definition handle_of (l : Listener) : nat :=
  match l with
  | ListenerSet h | ListenerClear h => h
  end.

(** The event a closure of [watch] is registered for. *)
Definition event_of (l : Listener) : string :=
  match l with
  | ListenerSet _ => "set"
  | ListenerClear _ => "clear"
  end.

(** No closure is registered twice on the bus, and every registered closure
    is under the event [watch] registers it for and belongs to a watch that
    exists. *)
Definition bus_invariant (st : Registry) : Prop :=
  NoDup (listeners st) /\
  forall p, p ∈ listeners st ->
            p.1 = event_of p.2 /\
            (handle_of p.2 < length (watches st))%nat.

(** The outcome keeps [bus_invariant]. *)
Definition keeps_bus (st : Registry) (out : Registry * list Effect) : Prop :=
  bus_invariant st -> bus_invariant out.1.

(** If [e] is a publication, it goes to a channel of the namespace [ks]
    and its payload is encoded with the sender [id]. *)
Definition own_publication (encode : string -> list any -> string)
    (id ks : string) (e : Effect) : Prop :=
  match e with
  | Publish channel payload =>
      exists c args,
        (c = ChannelConfigSet \/ c = ChannelConfigClear) /\
        channel = c +:+ ":" +:+ ks /\
        payload = encode id args
  | _ => True
  end.

(** The outcome keeps the identity and the namespace, and publishes only
    under that identity on the channels of that namespace. *)
Definition publishes_as_self (encode : string -> list any -> string)
    (st : Registry) (out : Registry * list Effect) : Prop :=
  uniqId out.1 = uniqId st /\
  keyspace out.1 = keyspace st /\
  Forall (own_publication encode (uniqId st) (keyspace st)) out.2.

(** The subscriptions made and the disconnections in the log account for
    the change of [subscriber]. *)
Definition balanced (st : Registry) (out : Registry * list Effect) : Prop :=
  (subscribes out.2 + 2 * Nat.b2n (subscriber st)
   = 2 * subscriber_quits out.2 + 2 * Nat.b2n (subscriber out.1))%nat.

(** Watch [h] exists and watches the key [k]. *)
Definition watches_key (h : nat) (k : string) (st : Registry) : Prop :=
  exists w, watches st !! h = Some w /\ w_key w = k.

(** The outcome keeps the key of watch [h] and invokes no callback. *)
Definition keeps_key (h : nat) (k : string) (st : Registry)
    (out : Registry * list Effect) : Prop :=
  (watches_key h k st -> watches_key h k out.1) /\
  handles_invoked out.2 = [].

(** The outcome keeps the key of watch [h] and does not invoke its
    callback. *)
Definition skips (h : nat) (k : string) (st : Registry)
    (out : Registry * list Effect) : Prop :=
  watches_key h k st -> watches_key h k out.1 /\ h ∉ handles_invoked out.2.

(** ** Sample data *)

Module Samples.

(** A registry that mirrors the array [[1,2]] under ["b"], as [pull] leaves
    it. *)
Definition mirror_of_b : Registry :=
  mkRegistry "global" "me"
             (mkObj {[ "b" := VObject 0 (JArr [JNum 1; JNum 2]) ]} ProtoObject)
             false [] [] 1.

(** A fresh registry of the namespace [global], as [new Registry(...)]
    leaves it. *)
Definition fresh : Registry := (construct "me" "global").1.

(** The same registry after [set("k", 1)]. *)
Definition after_set : Registry := (set Demo.stringify "k" (VNum 1) fresh).1.

(** And after [set("k", 2)] on top. *)
Definition after_second_set : Registry :=
  (set Demo.stringify "k" (VNum 2) after_set).1.

(** The fresh registry after [set("hasOwnProperty", 1)]. *)
Definition shadowed : Registry :=
  (set Demo.stringify "hasOwnProperty" (VNum 1) fresh).1.

(** A broadcast of this instance, and some of another instance. *)
Definition own_message : string :=
  Demo.encode "me" ⟦VStr "k"; VNum 5; VUndefined⟧.
Definition other_message : string :=
  Demo.encode "other" ⟦VStr "k"; VNum 5; VNum 4⟧.
Definition other_clear : string := Demo.encode "other" ⟦VStr "k"⟧.
Definition other_proto : string :=
  Demo.encode "other" ⟦VStr "__proto__"; VNum 1; VUndefined⟧.

Definition noop : Callback := UserCallback 7 (fun _ => []).

(** A callback that calls the disposer of watch 1. *)
Definition disposes_1 : Callback := UserCallback 8 (fun _ => [CallDispose 1]).

Definition sample_hash : gmap string string :=
  {[ "a" := "1"; "b" := "[1,2]"; "c" := "not-json" ]}.

(** Two watches on ["k"]; the callback of the first one disposes the
    second one.  Then ["k"] is set, the write is acknowledged, and another
    instance broadcasts a write of ["k"]. *)
Definition in_flight : list Input :=
  [ Api (CallWatch "k" disposes_1);
    Api (CallWatch "k" noop);
    Api (CallSet "k" (VNum 1));
    Reply (OnHset "k" (VNum 1) VUndefined) VNull None;
    Inbound "ConfigSet:global" other_message ].

End Samples.

(** ** More sample data *)

Module Fixtures.

(** Two instances of the namespace [global], and one of another
    namespace. *)
Definition alice : Registry := (construct "alice" "global").1.
Definition bob : Registry := (construct "bob" "global").1.
Definition carol : Registry := (construct "carol" "staging").1.

(** [bob] with the key ["x"] mirrored. *)
Definition bob_with_x : Registry :=
  with_store (mkObj {[ "x" := VNum 7 ]} ProtoObject) bob.

Definition log_only : Callback := UserCallback 3 (fun _ => []).

(** A callback that writes, clears, watches, and toggles the monitor. *)
Definition busy : Callback :=
  UserCallback 4 (fun a =>
    [CallSet "seen" (match a with Val v => v | Native _ => VUndefined end);
     CallStartMonitor; CallWatch "seen" log_only;
     CallStartMonitor; CallStopMonitor; CallDispose 0]).

(** [alice] with two watches, on ["k"] and on ["j"]. *)
Definition two_watches : Registry :=
  (watch "j" log_only (watch "k" log_only alice).1).1.

(** Broadcasts of [alice]. *)
Definition alice_sets_x : string :=
  Demo.encode "alice" ⟦VStr "x"; VNum 42; VUndefined⟧.
Definition alice_sets_x_again : string :=
  Demo.encode "alice" ⟦VStr "x"; VNum 43; VNum 42⟧.
Definition alice_clears_x : string := Demo.encode "alice" ⟦VStr "x"⟧.

End Fixtures.

(** ** How actions compose *)

Local Open Scope action_scope.

Lemma andthen_unfold (a b : Action) st :
  (a ;; b) st
  = if thrown (a st).2 then a st
    else ((b (a st).1).1, (a st).2 ++ (b (a st).1).2).
Proof.
  unfold andthen. destruct (a st) as [st1 e1]; simpl.
  destruct (thrown e1); [done|]. by destruct (b st1).
Qed.

(** A statement that leaves nothing in the log hands over to the next. *)
Lemma andthen_nil (a b : Action) st st1 :
  a st = (st1, []) -> (a ;; b) st = b st1.
Proof.
  intros Ha. rewrite andthen_unfold, Ha. simpl. by destruct (b st1).
Qed.

Lemma andthen_effect e (b : Action) st :
  e <> Throw -> (effect e ;; b) st = ((b st).1, e :: (b st).2).
Proof.
  intros He. rewrite andthen_unfold. unfold effect, thrown. simpl.
  by destruct e.
Qed.

Lemma turn_then_unfold (a b : Action) st :
  turn_then a b st = ((b (a st).1).1, (a st).2 ++ (b (a st).1).2).
Proof.
  unfold turn_then. destruct (a st) as [st1 e1]; simpl.
  by destruct (b st1).
Qed.

Lemma for_each_cons {A} (x : A) l (f : A -> Action) :
  for_each (x :: l) f = (f x ;; for_each l f).
Proof. reflexivity. Qed.

Lemma emitted_app t1 t2 : emitted (t1 ++ t2) = emitted t1 ++ emitted t2.
Proof. apply omap_app. Qed.

Lemma handles_invoked_app t1 t2 :
  handles_invoked (t1 ++ t2) = handles_invoked t1 ++ handles_invoked t2.
Proof. apply omap_app. Qed.

(** ** One induction for every property of the class

    [R st (st', tr)] relates a registry to the outcome of an action started
    on it.  When [R] holds of the elementary steps of the class and is
    closed under sequencing, it holds of every method. *)

Section Relational.

Context {rt : Runtime}.

Variable JSON_parse : string -> option json.
Variable JSON_stringify : value -> option string.
Variable MessageModel_encode : string -> list any -> string.
Variable MessageModel_decode : string -> option Message.

Variable R : Registry -> Registry * list Effect -> Prop.

Local Abbreviation sat := (satisfies R).

Hypothesis R_skip : forall st, R st (st, []).
Hypothesis R_seq : forall st st1 t1 st2 t2,
  R st (st1, t1) -> R st1 (st2, t2) -> R st (st2, t1 ++ t2).
Hypothesis R_effect : forall st e, passive e -> R st (st, [e]).
Hypothesis R_store : forall st s, R st (with_store s st, []).
Hypothesis R_subscriber : forall st b, R st (with_subscriber b st, []).
Hypothesis R_heap : forall st n, R st (with_heap_next n st, []).
Hypothesis R_on : forall st event l,
  event = "set" \/ event = "clear" ->
  R st (with_listeners (listeners st ++ [(event, l)]) st, []).
Hypothesis R_remove : forall st x,
  R st (with_listeners (reverse (remove_first x (reverse (listeners st)))) st,
        []).
Hypothesis R_watch : forall st key cb,
  R st (with_watches (watches st ++ [mkWatchEnv key cb false]) st, []).
Hypothesis R_dispose : forall st h w,
  watches st !! h = Some w ->
  R st (with_watches
          (<[h := mkWatchEnv (w_key w) (w_onModified w) true]> (watches st)) st,
        [Disposed h]).
Hypothesis R_invoke : forall st h w arg,
  watches st !! h = Some w -> w_ended w = false ->
  R st (st, [Invoke h (callback_id (w_onModified w)) arg]).
Hypothesis R_emit : forall st event args, R st (st, [Emit event args]).

Lemma sat_skip : sat skip.
Proof. intros st. apply R_skip. Qed.

Lemma R_then st st1 t1 (b : Action) :
  R st (st1, t1) -> sat b -> R st ((b st1).1, t1 ++ (b st1).2).
Proof.
  intros H Hb. specialize (Hb st1). destruct (b st1) as [st2 t2]; simpl.
  eapply R_seq; eauto.
Qed.

(** Sequencing, when the outcome of the first statement is known. *)
Lemma R_andthen (a b : Action) st st1 t1 :
  a st = (st1, t1) -> R st (st1, t1) -> sat b -> R st ((a ;; b) st).
Proof.
  intros Ha H Hb. rewrite andthen_unfold, Ha. cbn [fst snd].
  destruct (thrown t1); [done | by apply R_then].
Qed.

Lemma sat_andthen a b : sat a -> sat b -> sat (a ;; b).
Proof.
  intros Ha Hb st. specialize (Ha st).
  destruct (a st) as [st1 t1] eqn:E. by eapply R_andthen.
Qed.

Lemma sat_turn_then a b : sat a -> sat b -> sat (turn_then a b).
Proof.
  intros Ha Hb st. rewrite turn_then_unfold.
  specialize (Ha st). destruct (a st) as [st1 t1]. by apply R_then.
Qed.

Lemma sat_for_each {A} (l : list A) (f : A -> Action) :
  (forall x, sat (f x)) -> sat (for_each l f).
Proof.
  intros Hf. induction l as [|x l IH]; [apply sat_skip|].
  rewrite for_each_cons. by apply sat_andthen.
Qed.

Lemma sat_effect e : passive e -> sat (effect e).
Proof. intros He st. by apply R_effect. Qed.

Lemma sat_then_effect st st' e :
  R st (st', []) -> passive e -> R st (st', [e]).
Proof.
  intros H He. change [e] with ([] ++ [e]).
  eapply R_seq; [exact H | by apply R_effect].
Qed.

Lemma sat_on event l :
  event = "set" \/ event = "clear" -> sat (on event l).
Proof. intros He st. by apply R_on. Qed.

Lemma sat_removeListener event l : sat (removeListener event l).
Proof. intros st. apply R_remove. Qed.

Lemma sat_pull onSuccess : sat (pull onSuccess).
Proof.
  apply sat_andthen.
  - intros st. apply R_store.
  - intros st. by apply R_effect.
Qed.

Lemma sat_watch key cb : sat (watch key cb).
Proof.
  intros st. unfold watch. cbv zeta.
  apply sat_andthen; [intros st'; apply R_watch|].
  apply sat_andthen; apply sat_on; auto.
Qed.

Lemma sat_dispose h : sat (dispose h).
Proof.
  intros st. unfold dispose.
  destruct (watches st !! h) as [w|] eqn:Hw; [|apply R_skip].
  eapply R_andthen; [reflexivity | by apply R_dispose |].
  apply sat_andthen; apply sat_removeListener.
Qed.

Lemma sat_set key v : sat (set JSON_stringify key v).
Proof.
  intros st. unfold set. cbv zeta.
  destruct (strict_eq _ _); [apply R_skip|].
  apply sat_then_effect; [apply R_store | done].
Qed.

Lemma sat_clear key : sat (clear key).
Proof.
  intros st. unfold clear.
  destruct (obj_hasOwnProperty key (store st)) as [present|];
    [|by apply R_effect].
  apply sat_then_effect; [|done].
  destruct present; [apply R_store | apply R_skip].
Qed.

Lemma sat_startMonitor : sat startMonitor.
Proof.
  intros st. unfold startMonitor.
  destruct (subscriber st); [apply R_skip|].
  change [Subscribe (keySpaceChannel ChannelConfigSet st);
          Subscribe (keySpaceChannel ChannelConfigClear st)]
    with ([Subscribe (keySpaceChannel ChannelConfigSet st)] ++
          [Subscribe (keySpaceChannel ChannelConfigClear st)]).
  eapply R_seq; [|by apply R_effect].
  apply sat_then_effect; [apply R_subscriber | done].
Qed.

Lemma sat_stopMonitor : sat stopMonitor.
Proof.
  intros st. unfold stopMonitor.
  destruct (subscriber st); [|apply R_skip].
  apply sat_then_effect; [apply R_subscriber | done].
Qed.

Lemma sat_perform c : sat (perform JSON_stringify c).
Proof.
  destruct c; simpl;
    auto using sat_set, sat_clear, sat_watch, sat_dispose, sat_pull,
               sat_startMonitor, sat_stopMonitor.
Qed.

Lemma sat_invoke h w arg st :
  watches st !! h = Some w -> w_ended w = false ->
  R st (invoke JSON_stringify h (w_onModified w) arg st).
Proof.
  intros Hw He. unfold invoke.
  eapply R_andthen; [reflexivity | by apply R_invoke |].
  apply sat_for_each, sat_perform.
Qed.

Lemma sat_run_listener l args : sat (run_listener JSON_stringify l args).
Proof.
  intros st. unfold run_listener.
  destruct l as [h|h];
    (destruct (watches st !! h) as [w|] eqn:Hw; [|apply R_skip];
     destruct (w_ended w) eqn:He; [apply R_skip|];
     destruct (strict_eq _ _); [by apply sat_invoke | apply R_skip]).
Qed.

Lemma sat_listeners ls args :
  sat (for_each ls (fun l => run_listener JSON_stringify l args)).
Proof. apply sat_for_each. intros l. apply sat_run_listener. Qed.

Lemma sat_emit event args : sat (emit JSON_stringify event args).
Proof.
  intros st. unfold emit.
  eapply R_andthen; [reflexivity | apply R_emit | apply sat_listeners].
Qed.

Lemma sat_emitUpdated : sat (emitUpdated JSON_stringify).
Proof. apply sat_emit. Qed.

Lemma sat_emitError err : sat (emitError JSON_stringify err).
Proof. apply sat_emit. Qed.

Lemma sat_emitSet key v previous : sat (emitSet JSON_stringify key v previous).
Proof. apply sat_andthen; [apply sat_emit | apply sat_emitUpdated]. Qed.

Lemma sat_emitCleared key : sat (emitCleared JSON_stringify key).
Proof. apply sat_andthen; [apply sat_emit | apply sat_emitUpdated]. Qed.

Lemma sat_publish channel args : sat (publish MessageModel_encode channel args).
Proof. intros st. by apply R_effect. Qed.

Lemma sat_call_onSuccess f : sat (call_onSuccess JSON_stringify f).
Proof.
  destruct f as [|body]; simpl; [apply sat_emit|].
  apply sat_andthen; [by apply sat_effect|].
  apply sat_for_each, sat_perform.
Qed.

Lemma sat_applyEncodedKeyValue key text :
  sat (applyEncodedKeyValue JSON_parse key text).
Proof.
  intros st. unfold applyEncodedKeyValue.
  destruct (JSON_parse text) as [j|]; [|apply R_skip].
  change (@nil Effect) with (@nil Effect ++ []).
  eapply R_seq; [apply R_store | apply R_heap].
Qed.

Lemma sat_hgetall_callback onSuccess err hash :
  sat (hgetall_callback JSON_parse JSON_stringify onSuccess err hash).
Proof.
  unfold hgetall_callback.
  apply sat_andthen; [by apply sat_effect|].
  destruct (truthy err); [apply sat_emitError|].
  apply sat_andthen.
  { destruct hash as [h|]; [|apply sat_skip].
    apply sat_for_each. intros key. unfold apply_field.
    destruct (h !! key); [apply sat_applyEncodedKeyValue | apply sat_skip]. }
  apply sat_andthen; [apply sat_emitUpdated|].
  destruct onSuccess; [apply sat_call_onSuccess | apply sat_skip].
Qed.

Lemma sat_hset_callback key v previous err :
  sat (hset_callback JSON_stringify MessageModel_encode key v previous err).
Proof.
  unfold hset_callback.
  apply sat_andthen; [intros st; apply sat_publish|].
  apply sat_andthen; [by apply sat_effect|].
  destruct (truthy err); [apply sat_emitError | apply sat_emitSet].
Qed.

Lemma sat_hdel_callback key err :
  sat (hdel_callback JSON_stringify MessageModel_encode key err).
Proof.
  unfold hdel_callback.
  apply sat_andthen; [intros st; apply sat_publish|].
  apply sat_andthen; [by apply sat_effect|].
  destruct (truthy err); [apply sat_emitError | apply sat_emitCleared].
Qed.

Lemma sat_resume k err hash :
  sat (resume JSON_parse JSON_stringify MessageModel_encode k err hash).
Proof.
  destruct k; simpl;
    auto using sat_hgetall_callback, sat_hset_callback, sat_hdel_callback.
Qed.

Lemma sat_onSubscriberMessage channel message :
  sat (onSubscriberMessage JSON_stringify MessageModel_decode channel message).
Proof.
  intros st. unfold onSubscriberMessage.
  destruct (MessageModel_decode message) as [m|]; [|by apply R_effect].
  destruct (bool_decide _); [apply R_skip|]. cbv zeta.
  repeat case_bool_decide.
  - match goal with |- R _ ?x =>
      rewrite (surjective_pairing x), <- (app_nil_l x.2) end.
    apply R_then; [apply R_heap|].
    apply sat_andthen; [intros st'; apply R_store | apply sat_emitSet].
  - match goal with |- R _ ?x =>
      rewrite (surjective_pairing x), <- (app_nil_l x.2) end.
    apply R_then; [apply R_heap|].
    apply sat_andthen; [intros st'; apply R_store | apply sat_emitCleared].
  - apply R_heap.
Qed.

Lemma sat_step i :
  sat (step JSON_parse JSON_stringify MessageModel_encode MessageModel_decode i).
Proof.
  destruct i; simpl;
    auto using sat_perform, sat_resume, sat_onSubscriberMessage, sat_emitError.
Qed.

Lemma sat_run inputs :
  sat (run JSON_parse JSON_stringify MessageModel_encode MessageModel_decode
           inputs).
Proof.
  induction inputs as [|i inputs IH]; [apply sat_skip|].
  apply sat_turn_then; [apply sat_step | exact IH].
Qed.

End Relational.

(** ** Three instances of the induction *)

(** *** The listeners of the class never emit *)

Local Ltac silent_steps :=
  unfold silent; simpl;
  first
    [ by intros
    | intros ? ? ? ? ? H1 H2; by rewrite emitted_app, H1, H2
    | by intros ? [] ].

Lemma listeners_silent `{Runtime} JSON_stringify ls args st :
  emitted
    (for_each ls (fun l => run_listener JSON_stringify l args) st).2 = [].
Proof. apply (sat_listeners JSON_stringify silent); silent_steps. Qed.

Lemma perform_silent `{Runtime} JSON_stringify calls st :
  emitted (for_each calls (perform JSON_stringify) st).2 = [].
Proof.
  apply (sat_for_each silent); [silent_steps..|].
  intros c. apply (sat_perform JSON_stringify silent); silent_steps.
Qed.

Lemma emit_unfold `{Runtime} JSON_stringify event args st :
  emit JSON_stringify event args st
  = let out := for_each (listeners_of event st)
                        (fun l => run_listener JSON_stringify l args) st in
    (out.1, Emit event args :: out.2).
Proof. unfold emit. by rewrite andthen_effect. Qed.

Lemma emitted_emit `{Runtime} JSON_stringify event args st :
  emitted (emit JSON_stringify event args st).2 = [(event, args)].
Proof.
  rewrite emit_unfold. cbv zeta. cbn [snd].
  match goal with |- emitted (?e :: ?t) = _ =>
    change (emitted ([e] ++ t) = [(event, args)]) end.
  rewrite emitted_app. by rewrite listeners_silent.
Qed.

(** What follows an emission is emitted unless an exception left a
    listener. *)
Lemma emitted_emit_then `{Runtime} JSON_stringify event args event' args' st :
  let tr := (emit JSON_stringify event args ;;
             emit JSON_stringify event' args')%act st in
  exists rest,
    emitted tr.2 = (event, args) :: rest /\
    (rest = [(event', args')] \/ rest = [] /\ thrown tr.2 = true).
Proof.
  cbv zeta. rewrite andthen_unfold.
  destruct (thrown (emit JSON_stringify event args st).2) eqn:Hthrown.
  - exists []. rewrite emitted_emit. split; [done|]. by right.
  - exists [(event', args')]. cbn [snd].
    rewrite emitted_app, !emitted_emit. split; [done|]. by left.
Qed.

(** *** Only ["set"] and ["clear"] ever have listeners *)

Lemma Forall_remove_first {A} `{EqDecision A} (P : A -> Prop) x (l : list A) :
  Forall P l -> Forall P (remove_first x l).
Proof.
  induction 1 as [|y l Hy Hl IH]; simpl; [constructor|].
  destruct (decide (x = y)); [done | by constructor].
Qed.

Local Ltac wf_steps :=
  unfold keeps_wf, wf_listeners; simpl;
  first
    [ by intros
    | by eauto
    | intros ? ? ? ? ?; by rewrite Forall_app, Forall_singleton
    | intros ? ? ?; by apply Forall_reverse, Forall_remove_first, Forall_reverse ].

Lemma wf_listeners_run `{Runtime} JSON_parse JSON_stringify encode decode
    inputs st :
  wf_listeners st ->
  wf_listeners (run JSON_parse JSON_stringify encode decode inputs st).1.
Proof.
  apply (sat_run JSON_parse JSON_stringify encode decode keeps_wf); wf_steps.
Qed.

Lemma wf_listeners_perform `{Runtime} JSON_stringify calls st :
  wf_listeners st ->
  wf_listeners (for_each calls (perform JSON_stringify) st).1.
Proof.
  apply (sat_for_each keeps_wf); [wf_steps..|].
  intros c. apply (sat_perform JSON_stringify keeps_wf); wf_steps.
Qed.

Lemma listeners_of_other event st :
  wf_listeners st -> event <> "set" -> event <> "clear" ->
  listeners_of event st = [].
Proof.
  unfold wf_listeners, listeners_of. intros Hwf H1 H2.
  induction Hwf as [|[e l] ls He _ IH]; [done|].
  rewrite filter_cons. simpl in *.
  destruct (decide (e = event)) as [->|]; [by destruct He | done].
Qed.

(** Every registry that the constructor and a run can produce is of that
    kind. *)
Lemma wf_listeners_reachable `{Runtime} JSON_parse JSON_stringify encode decode
    id ks inputs :
  wf_listeners
    (run JSON_parse JSON_stringify encode decode inputs (construct id ks).1).1.
Proof. apply wf_listeners_run. constructor. Qed.

(** With no listener to call, [emit] only leaves its mark in the log. *)
Lemma emit_other `{Runtime} JSON_stringify event args st :
  wf_listeners st -> event <> "set" -> event <> "clear" ->
  emit JSON_stringify event args st = (st, [Emit event args]).
Proof.
  intros Hwf H1 H2. rewrite emit_unfold. by rewrite listeners_of_other.
Qed.

Lemma emit_no_listeners `{Runtime} JSON_stringify event args st :
  listeners st = [] ->
  emit JSON_stringify event args st = (st, [Emit event args]).
Proof.
  intros Hl. rewrite emit_unfold. unfold listeners_of. by rewrite Hl.
Qed.

(** *** A watch that has ended stays silent *)

Lemma respects_nil h : respects h [].
Proof. intros tr1 tr2 H. by destruct tr1. Qed.

Lemma respects_single h e : handles_invoked [e] = [] -> respects h [e].
Proof.
  intros He tr1 tr2 H.
  destruct tr1 as [|x [|y tr1]]; simplify_eq/=; try apply not_elem_of_nil.
Qed.

Lemma quiet_after_skip h st : quiet_after h st (st, []).
Proof.
  repeat split; simpl; auto using respects_nil.
  - apply not_elem_of_nil.
  - by intros ?%elem_of_nil.
Qed.

Lemma quiet_after_seq h st st1 t1 st2 t2 :
  quiet_after h st (st1, t1) -> quiet_after h st1 (st2, t2) ->
  quiet_after h st (st2, t1 ++ t2).
Proof.
  intros (A1 & B1 & C1) (A2 & B2 & C2). simpl in *. repeat split; simpl.
  - destruct (A1 H) as [E1 _]. by destruct (A2 E1).
  - rewrite handles_invoked_app, not_elem_of_app.
    destruct (A1 H) as [E1 N1]. by destruct (A2 E1).
  - intros tr1 tr2 Heq.
    apply app_eq_inv in Heq as [(k & Ht1 & Hk)|(k & _ & Ht2)].
    + destruct k as [|x k]; simplify_eq/=.
      * by apply (B2 [] tr2).
      * rewrite handles_invoked_app, not_elem_of_app. split.
        -- by apply (B1 tr1 k).
        -- apply A2, C1. rewrite elem_of_app. right. left.
    + by apply (B2 k tr2).
  - rewrite elem_of_app. intros [H|H]; [|by auto].
    by apply A2, C1.
Qed.

Lemma quiet_after_frame h st st' tr :
  (ended h st -> ended h st') ->
  handles_invoked tr = [] ->
  Disposed h ∉ tr ->
  quiet_after h st (st', tr).
Proof.
  intros Hw Hinv Hd. repeat split; simpl; auto.
  - rewrite Hinv. apply not_elem_of_nil.
  - intros tr1 tr2 ->. rewrite handles_invoked_app in Hinv. simpl in Hinv.
    apply app_eq_nil in Hinv as [_ Hinv].
    destruct (handles_invoked tr2) eqn:E; [apply not_elem_of_nil|].
    by destruct tr2.
  - done.
Qed.

Lemma ended_append h st w :
  ended h st -> ended h (with_watches (watches st ++ [w]) st).
Proof.
  intros (w' & Hw' & He). exists w'. split; [|done].
  simpl. by apply lookup_app_l_Some.
Qed.

Lemma ended_insert h h' st w w' :
  watches st !! h' = Some w -> w_ended w' = true ->
  ended h st -> ended h (with_watches (<[h' := w']> (watches st)) st).
Proof.
  intros Hw Hw' (w0 & Hw0 & He). unfold ended. simpl.
  destruct (decide (h' = h)) as [->|Hne].
  - exists w'. split; [|done].
    apply list_lookup_insert_eq. by eapply lookup_lt_Some.
  - exists w0. by rewrite list_lookup_insert_ne.
Qed.

Lemma quiet_after_dispose h st h' w :
  watches st !! h' = Some w ->
  quiet_after h st
    (with_watches
       (<[h' := mkWatchEnv (w_key w) (w_onModified w) true]> (watches st)) st,
     [Disposed h']).
Proof.
  intros Hw. repeat split; simpl.
  - by eapply ended_insert.
  - apply not_elem_of_nil.
  - by apply respects_single.
  - intros Hin%list_elem_of_singleton. simplify_eq.
    eexists. split;
      [apply list_lookup_insert_eq; by eapply lookup_lt_Some | reflexivity].
Qed.

Lemma quiet_after_invoke h st h' w arg :
  watches st !! h' = Some w -> w_ended w = false ->
  quiet_after h st (st, [Invoke h' (callback_id (w_onModified w)) arg]).
Proof.
  intros Hw He. repeat split; simpl.
  - done.
  - intros Hin%list_elem_of_singleton. subst h'.
    destruct H as (w' & Hw' & He'). congruence.
  - intros tr1 tr2 Heq.
    destruct tr1 as [|x [|y tr1]]; simplify_eq/=.
  - by intros Hin%list_elem_of_singleton.
Qed.

Local Ltac quiet_steps h :=
  first
    [ apply quiet_after_skip
    | apply quiet_after_seq
    | apply quiet_after_dispose
    | apply quiet_after_invoke
    | by intros ? ?; apply quiet_after_frame;
         [ intros (w & ? & ?); by exists w
         | done
         | apply not_elem_of_nil ]
    | by intros ? ? ?; apply quiet_after_frame;
         [ intros (w & ? & ?); by exists w
         | done
         | first [ apply not_elem_of_nil
                 | by intros ?%list_elem_of_singleton ] ]
    | by intros ? ? ? ?; apply quiet_after_frame;
         [ intros (w & ? & ?); by exists w
         | done
         | apply not_elem_of_nil ]
    | intros ? [] ?; try done;
        (apply quiet_after_frame;
         [ done | done | by intros ?%list_elem_of_singleton ])
    | intros ? ? ?; apply quiet_after_frame;
        [ apply ended_append | done | apply not_elem_of_nil ] ].

(** Every run of the registry keeps a watch that has ended silent, at each
    point of the log. *)
Lemma quiet_after_run `{Runtime} JSON_parse JSON_stringify encode decode
    h inputs st :
  quiet_after h st (run JSON_parse JSON_stringify encode decode inputs st).
Proof.
  apply (sat_run JSON_parse JSON_stringify encode decode (quiet_after h));
    quiet_steps h.
Qed.

(** A run that starts after the disposal never invokes the callback. *)
Lemma ended_watch_silent `{Runtime} JSON_parse JSON_stringify encode decode
    h inputs st :
  ended h st ->
  h ∉ handles_invoked
        (run JSON_parse JSON_stringify encode decode inputs st).2.
Proof.
  intros He.
  destruct (quiet_after_run JSON_parse JSON_stringify encode decode
              h inputs st) as (Hq & _ & _).
  by destruct (Hq He).
Qed.

(** The same for the listeners that one emission calls, whatever the copy
    of the listener array contains. *)
Lemma quiet_after_listeners `{Runtime} JSON_stringify h ls args st :
  quiet_after h st
    (for_each ls (fun l => run_listener JSON_stringify l args) st).
Proof.
  apply (sat_listeners JSON_stringify (quiet_after h)); quiet_steps h.
Qed.

(** ** The mirror object *)

Lemma obj_eta o : mkObj (own o) (proto o) = o.
Proof. by destruct o. Qed.

Lemma obj_get_own `{Runtime} k o v : own o !! k = Some v -> obj_get k o = Val v.
Proof. unfold obj_get. by intros ->. Qed.

Lemma obj_get_inherited `{Runtime} k o :
  own o !! k = None -> obj_get k o = inherited (proto o) k.
Proof. unfold obj_get. by intros ->. Qed.

Lemma inherited_Object_prototype `{Runtime} k :
  inherited ProtoObject k
  = if bool_decide (k = "__proto__") then Native "Object.prototype"
    else if bool_decide (k ∈ Object_prototype_functions)
         then Native ("Object.prototype." +:+ k)
         else Val VUndefined.
Proof. reflexivity. Qed.

Lemma inherited_ordinary `{Runtime} k :
  ordinary k -> inherited ProtoObject k = Val VUndefined.
Proof.
  intros [H1 H2]. rewrite inherited_Object_prototype.
  by rewrite !bool_decide_false.
Qed.

(** Reading a key that is not mirrored on a mirror whose prototype is the
    original one: a key of [Object.prototype] gives a built-in, another key
    gives [undefined]. *)
Lemma read_unmirrored `{Runtime} key st :
  own (store st) !! key = None -> proto (store st) = ProtoObject ->
  (ordinary key -> read key st = Val VUndefined) /\
  (~ ordinary key -> exists name, read key st = Native name).
Proof.
  intros Hown Hproto. unfold read. rewrite obj_get_inherited, Hproto by done.
  split; [apply inherited_ordinary|].
  intros Hno. rewrite inherited_Object_prototype.
  case_bool_decide; [eauto|]. case_bool_decide; [eauto|].
  by destruct Hno.
Qed.

(** Assignment writes the own property, except through the setter. *)
Lemma obj_set_own k v o :
  k <> "__proto__" -> obj_set k v o = mkObj (<[k := v]> (own o)) (proto o).
Proof. intros Hk. unfold obj_set. by rewrite bool_decide_false. Qed.

Lemma obj_set_setter v o :
  own o !! "__proto__" = None -> reaches_accessor (proto o) = true ->
  obj_set "__proto__" v o = mkObj (own o) (proto_set_to v (proto o)).
Proof.
  intros Hown Hreach. unfold obj_set.
  rewrite !bool_decide_true, Hreach by done. simpl.
  destruct v; simpl; by rewrite ?obj_eta.
Qed.

Lemma own_obj_set k v o key :
  key <> "__proto__" ->
  own (obj_set k v o) !! key
  = if decide (key = k) then Some v else own o !! key.
Proof.
  intros Hkey. unfold obj_set.
  destruct (bool_decide (k = "__proto__") && _ && _) eqn:Hsetter.
  - apply andb_true_iff in Hsetter as [[Hk%bool_decide_eq_true _]%andb_true_iff _].
    rewrite decide_False by congruence. by destruct v.
  - simpl. destruct (decide (key = k)) as [->|Hk]; [apply lookup_insert_eq|].
    by apply lookup_insert_ne.
Qed.

Lemma proto_obj_set k v o : k <> "__proto__" -> proto (obj_set k v o) = proto o.
Proof. intros Hk. by rewrite obj_set_own. Qed.

Lemma strict_eq_native name (v : value) : strict_eq (Native name) v = false.
Proof. reflexivity. Qed.

Lemma intact_finds o : intact o -> finds_hasOwnProperty o = true.
Proof. intros [Hp Ho]. unfold finds_hasOwnProperty. by rewrite Ho, Hp. Qed.

Lemma intact_obj_set k v o :
  intact o -> k <> "__proto__" -> k <> "hasOwnProperty" ->
  intact (obj_set k v o).
Proof.
  intros [Hp Ho] H1 H2. rewrite obj_set_own by done. split; [done|].
  simpl. by rewrite lookup_insert_ne.
Qed.

Lemma intact_obj_delete k o : intact o -> intact (obj_delete k o).
Proof.
  intros [Hp Ho]. split; [done|]. simpl.
  destruct (decide (k = "hasOwnProperty")) as [->|Hne].
  - apply lookup_delete_eq.
  - by rewrite lookup_delete_ne.
Qed.

Lemma get_found `{Runtime} key d st :
  finds_hasOwnProperty (store st) = true ->
  get key d st
  = Some (match own (store st) !! key with
          | Some v => Val v
          | None => Val d
          end).
Proof.
  intros Hf. unfold get, obj_hasOwnProperty, read, obj_get. rewrite Hf.
  destruct (own (store st) !! key) as [v|] eqn:Hk.
  - by rewrite bool_decide_true by eauto.
  - rewrite bool_decide_false; [done|]. by intros [? [=]].
Qed.

Lemma get_not_found `{Runtime} key d st :
  finds_hasOwnProperty (store st) = false -> get key d st = None.
Proof. intros Hf. unfold get, obj_hasOwnProperty. by rewrite Hf. Qed.

Lemma set_unfold `{Runtime} JSON_stringify key (v : value) st :
  strict_eq (read key st) v = false ->
  set JSON_stringify key v st
  = (with_store (obj_set key v (store st)) st,
     [Hset ("config:" +:+ keyspace st) key (JSON_stringify v)
           (OnHset key v (read key st))]).
Proof. intros Hne. unfold set. cbv zeta. by rewrite Hne. Qed.

Lemma set_noop `{Runtime} JSON_stringify key (v : value) st :
  strict_eq (read key st) v = true -> set JSON_stringify key v st = (st, []).
Proof. intros Heq. unfold set. cbv zeta. by rewrite Heq. Qed.

(** ** The accessor *)

(** C8, on the code: [get] asks the mirror object itself for
    [hasOwnProperty].  On a mirror as [{}] creates it, ["hasOwnProperty"] is
    not mirrored and [get("hasOwnProperty", d)] returns [d]; after
    [set("hasOwnProperty", v)] the key is mirrored with the value [v], and
    from then on [get] throws for every key: it returns neither the mirrored
    value nor the default. *)
Theorem get_throws_once_hasOwnProperty_is_mirrored `{Runtime}
    JSON_stringify st v d :
  intact (store st) ->
  let st1 := (set JSON_stringify "hasOwnProperty" v st).1 in
  get "hasOwnProperty" d st = Some (Val d) /\
  own (store st1) !! "hasOwnProperty" = Some v /\
  forall key, get key d st1 = None.
Proof.
  intros Hint st1. pose proof Hint as [Hp Ho].
  split.
  { rewrite get_found by by apply intact_finds. by rewrite Ho. }
  assert (Hread : read "hasOwnProperty" st
                  = Native "Object.prototype.hasOwnProperty").
  { unfold read. by rewrite obj_get_inherited, Hp. }
  assert (Hst1 : own (store st1) !! "hasOwnProperty" = Some v).
  { subst st1. rewrite set_unfold by by rewrite Hread.
    cbn [fst store with_store]. rewrite own_obj_set by done.
    by rewrite decide_True. }
  split; [done|].
  intros key. apply get_not_found. unfold finds_hasOwnProperty.
  by rewrite Hst1.
Qed.

(** ** Inbound broadcasts *)

(** C2: a message whose decoded sender is the identity of this instance is
    discarded, on every channel: the registry (the Local Mirror included) is
    unchanged and the log is empty, so no ["set"], ["cleared"] or
    ["updated"] notification fires. *)
Theorem self_echo_discarded `{Runtime} JSON_stringify decode st channel
    message m :
  decode message = Some m ->
  m_sender m = uniqId st ->
  onSubscriberMessage JSON_stringify decode channel message st = (st, []).
Proof.
  intros Hm Hs. unfold onSubscriberMessage.
  by rewrite Hm, bool_decide_true.
Qed.

(** The handler, for a message of another sender. *)
Lemma onSubscriberMessage_other `{Runtime} JSON_stringify decode st channel
    message m :
  decode message = Some m ->
  m_sender m <> uniqId st ->
  let dArgs := decoded_arguments (heap_next st) (m_arguments m) in
  let st0 := with_heap_next (heap_next st + length (m_arguments m))%nat st in
  let keyName := index dArgs 0 in
  onSubscriberMessage JSON_stringify decode channel message st
  = if bool_decide (channel = "ConfigSet:" +:+ keyspace st) then
      emitSet JSON_stringify keyName (index dArgs 1)
        (read (to_property_key keyName) st)
        (with_store (obj_set (to_property_key keyName) (index dArgs 1)
                             (store st))
                    st0)
    else if bool_decide (channel = "ConfigClear:" +:+ keyspace st) then
      emitCleared JSON_stringify keyName
        (with_store (obj_delete (to_property_key keyName) (store st)) st0)
    else (st0, []).
Proof.
  intros Hm Hs. cbv zeta. unfold onSubscriberMessage.
  rewrite Hm, bool_decide_false by done. cbv zeta.
  change (keySpaceChannel ChannelConfigSet (with_heap_next _ st))
    with ("ConfigSet:" +:+ keyspace st).
  change (keySpaceChannel ChannelConfigClear (with_heap_next _ st))
    with ("ConfigClear:" +:+ keyspace st).
  repeat case_bool_decide; [| |done]; by erewrite andthen_nil by reflexivity.
Qed.

Lemma onSubscriberMessage_set `{Runtime} JSON_stringify decode st message m
    key newValue prevRValue :
  decode message = Some m ->
  m_sender m <> uniqId st ->
  m_arguments m = [JStr key; newValue; prevRValue] ->
  onSubscriberMessage JSON_stringify decode
    ("ConfigSet:" +:+ keyspace st) message st
  = emitSet JSON_stringify (VStr key) (of_json (heap_next st + 1) newValue)
      (read key st)
      (with_store (obj_set key (of_json (heap_next st + 1) newValue) (store st))
         (with_heap_next (heap_next st + 3) st)).
Proof.
  intros Hm Hs Hargs.
  rewrite (onSubscriberMessage_other _ _ _ _ _ m) by done. cbv zeta.
  rewrite bool_decide_true by done. by rewrite Hargs.
Qed.

Lemma onSubscriberMessage_clear `{Runtime} JSON_stringify decode st message m
    key rest :
  decode message = Some m ->
  m_sender m <> uniqId st ->
  m_arguments m = JStr key :: rest ->
  onSubscriberMessage JSON_stringify decode
    ("ConfigClear:" +:+ keyspace st) message st
  = emitCleared JSON_stringify (VStr key)
      (with_store (obj_delete key (store st))
         (with_heap_next (heap_next st + S (length rest)) st)).
Proof.
  intros Hm Hs Hargs.
  rewrite (onSubscriberMessage_other _ _ _ _ _ m) by done. cbv zeta.
  rewrite bool_decide_false by done. rewrite bool_decide_true by done.
  by rewrite Hargs.
Qed.

Lemma emitted_emitSet `{Runtime} JSON_stringify key v previous st :
  let tr := (emitSet JSON_stringify key v previous st).2 in
  exists rest,
    emitted tr = ("set", ⟦key; v; previous⟧) :: rest /\
    (rest = [("updated", ⟦ ⟧)] \/ rest = [] /\ thrown tr = true).
Proof. apply emitted_emit_then. Qed.

Lemma emitted_emitCleared `{Runtime} JSON_stringify key st :
  let tr := (emitCleared JSON_stringify key st).2 in
  exists rest,
    emitted tr = ("cleared", ⟦key⟧) :: rest /\
    (rest = [("updated", ⟦ ⟧)] \/ rest = [] /\ thrown tr = true).
Proof. apply emitted_emit_then. Qed.

Lemma emitSet_no_listeners `{Runtime} JSON_stringify key v previous st :
  listeners st = [] ->
  emitSet JSON_stringify key v previous st
  = (st, [Emit "set" ⟦key; v; previous⟧; Emit "updated" ⟦ ⟧]).
Proof.
  intros Hl. unfold emitSet, emitUpdated. rewrite andthen_unfold.
  rewrite (emit_no_listeners _ "set") by done. cbn [fst snd thrown last].
  by rewrite (emit_no_listeners _ "updated") by done.
Qed.

Lemma emitCleared_other `{Runtime} JSON_stringify key st :
  wf_listeners st ->
  emitCleared JSON_stringify key st
  = (st, [Emit "cleared" ⟦key⟧; Emit "updated" ⟦ ⟧]).
Proof.
  intros Hwf. unfold emitCleared, emitUpdated. rewrite andthen_unfold.
  rewrite (emit_other _ "cleared") by done. cbn [fst snd thrown last].
  by rewrite (emit_other _ "updated") by done.
Qed.

(** C7, on the code: for the key [__proto__] the assignment
    [this.store[keyName] = newValue] does not write the mirror.  On a mirror
    as [{}] creates it, a message of another sender on the ["set"] channel
    that carries [["__proto__", newValue, _]] leaves the own properties of
    the mirror as they were, so [__proto__] is not mirrored afterwards;
    when [newValue] is an array or an object it becomes the prototype of
    the mirror, and [null] empties the prototype chain.  The ["set"]
    notification fires all the same, and its previous-value argument is
    [Object.prototype], which was never mirrored. *)
Theorem inbound_set_misses_proto_key `{Runtime} JSON_stringify decode st
    message m newValue prevRValue :
  decode message = Some m ->
  m_sender m <> uniqId st ->
  m_arguments m = [JStr "__proto__"; newValue; prevRValue] ->
  own (store st) !! "__proto__" = None ->
  proto (store st) = ProtoObject ->
  let v := of_json (heap_next st + 1) newValue in
  let out := onSubscriberMessage JSON_stringify decode
               ("ConfigSet:" +:+ keyspace st) message st in
  exists st1 rest,
    out = emitSet JSON_stringify (VStr "__proto__") v
            (Native "Object.prototype") st1 /\
    own (store st1) = own (store st) /\
    own (store st1) !! "__proto__" = None /\
    proto (store st1) = proto_set_to v ProtoObject /\
    emitted out.2
    = ("set", ⟦VStr "__proto__"; v; Native "Object.prototype"⟧) :: rest.
Proof.
  intros Hm Hs Hargs Hown Hproto v out. subst out.
  erewrite onSubscriberMessage_set by done. fold v.
  assert (Hread : read "__proto__" st = Native "Object.prototype").
  { unfold read. by rewrite obj_get_inherited, Hproto. }
  rewrite Hread, obj_set_setter, Hproto by (by rewrite ?Hproto).
  match goal with |- context [emitSet _ _ _ _ ?s] =>
    destruct (emitted_emitSet JSON_stringify (VStr "__proto__") v
                (Native "Object.prototype") s) as (rest & Hrest & _) end.
  eexists _, rest. split; [reflexivity|]. done.
Qed.

(** ** Local writes *)

Lemma thrown_cons e t : t <> [] -> thrown (e :: t) = thrown t.
Proof.
  intros Ht. unfold thrown. rewrite last_cons.
  destruct (last t) eqn:E; [done|]. by apply last_None in E.
Qed.

Lemma emitted_nonempty t : emitted t <> [] -> t <> [].
Proof. by intros Ht ->. Qed.

Lemma hset_callback_unfold `{Runtime} JSON_stringify encode key v previous
    err st :
  hset_callback JSON_stringify encode key v previous err st
  = let out := (if truthy err then emitError JSON_stringify err
                else emitSet JSON_stringify (VStr key) v previous) st in
    (out.1,
     Publish ("ConfigSet:" +:+ keyspace st)
             (encode (uniqId st) ⟦VStr key; v; previous⟧)
     :: Quit :: out.2).
Proof.
  unfold hset_callback. rewrite andthen_unfold.
  cbn [publish fst snd thrown last]. by rewrite andthen_effect.
Qed.

Lemma hdel_callback_unfold `{Runtime} JSON_stringify encode key err st :
  hdel_callback JSON_stringify encode key err st
  = let out := (if truthy err then emitError JSON_stringify err
                else emitCleared JSON_stringify (VStr key)) st in
    (out.1,
     Publish ("ConfigClear:" +:+ keyspace st) (encode (uniqId st) ⟦VStr key⟧)
     :: Quit :: out.2).
Proof.
  unfold hdel_callback. rewrite andthen_unfold.
  cbn [publish fst snd thrown last]. by rewrite andthen_effect.
Qed.

(** C1: a call [set(key, value)] that is not a no-op writes the mirror and
    sends one [hset] request whose continuation holds [previous], the value
    that [this.store[key]] gave before the write: the mirrored value when
    the key is mirrored, [undefined] when it is not (on a mirror with its
    original prototype and for a key that [Object.prototype] has no property
    for).  When the request completes, on whatever registry exists then,
    the first effect is the publication of [[key, value, previous]] on the
    ["set"] channel of the namespace, whether [err] is set or not; then, if
    [err] is set, the only event emitted is ["error"]; otherwise ["set"] is
    emitted first, with the new value and [previous], and ["updated"]
    follows unless an exception left a listener of ["set"]. *)
Theorem set_completion_publishes_then_notifies `{Runtime}
    JSON_parse JSON_stringify encode st key (v : value) st' err hash :
  strict_eq (read key st) v = false ->
  let previous := read key st in
  let tr := (resume JSON_parse JSON_stringify encode
                    (OnHset key v previous) err hash st').2 in
  (forall p, own (store st) !! key = Some p -> previous = Val p) /\
  (own (store st) !! key = None -> proto (store st) = ProtoObject ->
   ordinary key -> previous = Val VUndefined) /\
  set JSON_stringify key v st
  = (with_store (obj_set key v (store st)) st,
     [Hset ("config:" +:+ keyspace st) key (JSON_stringify v)
           (OnHset key v previous)]) /\
  (exists rest,
     tr = Publish ("ConfigSet:" +:+ keyspace st')
                  (encode (uniqId st') ⟦VStr key; v; previous⟧)
          :: Quit :: rest) /\
  (truthy err = true -> emitted tr = [("error", ⟦err⟧)]) /\
  (truthy err = false ->
   exists rest,
     emitted tr = ("set", ⟦VStr key; v; previous⟧) :: rest /\
     (rest = [("updated", ⟦ ⟧)] \/ rest = [] /\ thrown tr = true)).
Proof.
  intros Hne previous tr. subst tr previous. cbn [resume].
  rewrite hset_callback_unfold. cbv zeta. cbn [snd].
  split; [|split; [|split; [|split; [|split]]]].
  - intros p Hp. by apply obj_get_own.
  - intros Hown Hproto Hord. by apply read_unmirrored.
  - by apply set_unfold.
  - eauto.
  - intros ->. cbn [emitted omap]. apply emitted_emit.
  - intros ->. cbn [emitted omap].
    destruct (emitted_emitSet JSON_stringify (VStr key) v (read key st) st')
      as (rest & Hrest & Hcases).
    cbv zeta in Hrest, Hcases.
    exists rest. split; [exact Hrest|].
    destruct Hcases as [?|[? Hthrown]]; [by left | right].
    split; [done|].
    rewrite !thrown_cons; [done|..];
      try discriminate; apply emitted_nonempty; by rewrite Hrest.
Qed.

(** C10, on the code: [clear] asks the mirror object itself for
    [hasOwnProperty].  On a mirror as [{}] creates it, [clear(key)] on a key
    that is not mirrored leaves the mirror as it is and sends the [hdel]
    request.  After [set("hasOwnProperty", v)], the same call on the same
    key, still not mirrored, throws before anything is sent: no deletion is
    issued, so nothing is published or emitted for it. *)
Theorem clear_throws_once_hasOwnProperty_is_mirrored `{Runtime}
    JSON_stringify st v key :
  intact (store st) ->
  own (store st) !! key = None ->
  key <> "hasOwnProperty" ->
  let st1 := (set JSON_stringify "hasOwnProperty" v st).1 in
  clear key st = (st, [Hdel ("config:" +:+ keyspace st) key (OnHdel key)]) /\
  own (store st1) !! key = None /\
  clear key st1 = (st1, [Throw]).
Proof.
  intros Hint Hkey Hne st1. pose proof Hint as [Hp Ho].
  assert (Hread : read "hasOwnProperty" st
                  = Native "Object.prototype.hasOwnProperty").
  { unfold read. by rewrite obj_get_inherited, Hp. }
  assert (Hst1 : store st1
                 = mkObj (<["hasOwnProperty" := v]> (own (store st)))
                         (proto (store st))).
  { subst st1. rewrite set_unfold by by rewrite Hread.
    cbn [fst store with_store]. by rewrite obj_set_own. }
  split; [|split].
  - unfold clear, obj_hasOwnProperty. rewrite intact_finds by done.
    rewrite bool_decide_false; [done|]. rewrite Hkey. by intros [? [=]].
  - rewrite Hst1. simpl. by rewrite lookup_insert_ne.
  - unfold clear, obj_hasOwnProperty, finds_hasOwnProperty.
    rewrite Hst1. simpl. by rewrite lookup_insert_eq.
Qed.

Lemma strict_eq_primitive (a v : value) :
  primitive v -> same_contents a v -> strict_eq a v = true.
Proof.
  unfold same_contents.
  destruct v, a; simpl; intros Hp Heq; simplify_eq; try done;
    by rewrite bool_decide_true.
Qed.

(** C4, as amended: [set(key, v)] is a no-op when [v] is strictly equal
    ([===]) to what the mirror gives for [key]; this is the case when [v]
    is a primitive other than [NaN] whose value is the mirrored one, or the
    very object that is mirrored.  An object with the contents of the
    mirrored one and another reference is not strictly equal to it, and the
    call sends the request.  For a key other than [__proto__], a call that
    is not a no-op sends one request, and a second call with the same
    value, strictly equal to itself, is a no-op: two calls trigger one
    cycle. *)
Theorem set_strictly_equal_is_noop `{Runtime} JSON_stringify st key
    (v : value) :
  (strict_eq (read key st) v = true ->
   set JSON_stringify key v st = (st, [])) /\
  (forall p, own (store st) !! key = Some p ->
   primitive v -> same_contents p v ->
   set JSON_stringify key v st = (st, [])) /\
  (forall r r' c, own (store st) !! key = Some (VObject r c) ->
   (r' = r -> set JSON_stringify key (VObject r' c) st = (st, [])) /\
   (r' <> r ->
    (set JSON_stringify key (VObject r' c) st).2
    = [Hset ("config:" +:+ keyspace st) key (JSON_stringify (VObject r' c))
            (OnHset key (VObject r' c) (VObject r c))])) /\
  (key <> "__proto__" ->
   strict_eq (read key st) v = false -> strict_eq v v = true ->
   let out := set JSON_stringify key v st in
   out.2 = [Hset ("config:" +:+ keyspace st) key (JSON_stringify v)
                 (OnHset key v (read key st))] /\
   set JSON_stringify key v out.1 = (out.1, [])).
Proof.
  split; [apply set_noop|]. split; [|split].
  - intros p Hp Hprim Hsame. apply set_noop. unfold read.
    rewrite (obj_get_own _ _ p) by done. by apply strict_eq_primitive.
  - intros r r' c Hown.
    assert (Hread : read key st = Val (VObject r c))
      by by apply obj_get_own.
    split.
    + intros ->. apply set_noop. rewrite Hread. simpl.
      by rewrite bool_decide_true.
    + intros Hne. rewrite set_unfold, Hread; [done|].
      rewrite Hread. simpl. by rewrite bool_decide_false.
  - intros Hkey Hne Hself out. subst out.
    rewrite set_unfold by done. cbn [fst snd]. split; [done|].
    apply set_noop. unfold read. cbn [store with_store].
    rewrite (obj_get_own _ _ v); [done|].
    rewrite own_obj_set by done. by rewrite decide_True.
Qed.

(** C4, as stated, fails: the array [[1,2]] written by the caller has the
    contents of the mirrored array but is another object, and [set] sends
    the request. *)
Lemma set_equal_contents_not_noop :
  own (store Samples.mirror_of_b) !! "b"
  = Some (VObject 0 (JArr [JNum 1; JNum 2])) /\
  same_contents (VObject 7 (JArr [JNum 1; JNum 2]))
                (VObject 0 (JArr [JNum 1; JNum 2])) /\
  (set Demo.stringify "b" (VObject 7 (JArr [JNum 1; JNum 2]))
       Samples.mirror_of_b).2
  = [Hset "config:global" "b" (Some "[1,2]")
          (OnHset "b" (VObject 7 (JArr [JNum 1; JNum 2]))
                      (VObject 0 (JArr [JNum 1; JNum 2])))].
Proof. split; [|split]; vm_compute; reflexivity. Qed.

(** ** Bootstrap *)

Lemma andthen_silent (a b : Action) st :
  (a st).2 = [] -> (a ;; b) st = b (a st).1.
Proof.
  intros Ha. apply andthen_nil. rewrite <- Ha. apply surjective_pairing.
Qed.

Lemma pull_unfold onSuccess st :
  pull onSuccess st
  = (with_store ∅ st,
     [Hgetall ("config:" +:+ keyspace st) (OnHgetall onSuccess)]).
Proof. unfold pull. by erewrite andthen_nil by reflexivity. Qed.

Section Bootstrap.

Variable JSON_parse : string -> option json.
Variable hash : gmap string string.

Local Abbreviation apply_field := (apply_field JSON_parse hash).
Local Abbreviation parsed := (parsed JSON_parse hash).

Lemma contents_of_json r j : contents (of_json r j) = of_json 0 j.
Proof. by destruct j. Qed.

Lemma parsed_key key :
  key <> "__proto__" -> parsed key = of_json 0 <$> (hash !! key ≫= JSON_parse).
Proof. intros Hk. unfold parsed. by rewrite bool_decide_false. Qed.

Lemma apply_field_spec x st :
  (apply_field x st).2 = [] /\
  listeners (apply_field x st).1 = listeners st /\
  (x <> "__proto__" ->
   proto (store (apply_field x st).1) = proto (store st)) /\
  forall key, key <> "__proto__" ->
    contents <$> (own (store (apply_field x st).1) !! key)
    = if decide (key = x)
      then match parsed x with
           | Some v => Some v
           | None => contents <$> (own (store st) !! key)
           end
      else contents <$> (own (store st) !! key).
Proof.
  unfold apply_field, applyEncodedKeyValue.
  destruct (hash !! x) as [text|] eqn:Hx; simpl.
  - destruct (JSON_parse text) as [j|] eqn:Hj; simpl.
    + split; [done|]. split; [done|]. split; [apply proto_obj_set|].
      intros key Hkey. rewrite own_obj_set by done.
      destruct (decide (key = x)) as [->|Hne]; [|done].
      rewrite parsed_key by done. rewrite Hx. simpl. rewrite Hj. simpl.
      by rewrite contents_of_json.
    + split; [done|]. split; [done|]. split; [done|].
      intros key Hkey. destruct (decide (key = x)) as [->|Hne]; [|done].
      rewrite parsed_key by done. rewrite Hx. simpl. by rewrite Hj.
  - split; [done|]. split; [done|]. split; [done|].
    intros key Hkey. destruct (decide (key = x)) as [->|Hne]; [|done].
    rewrite parsed_key by done. by rewrite Hx.
Qed.

(** The field [__proto__] does not become an own property of a mirror that
    still has its original prototype. *)
Lemma apply_field_proto x st :
  own (store st) !! "__proto__" = None ->
  (x = "__proto__" -> proto (store st) = ProtoObject) ->
  own (store (apply_field x st).1) !! "__proto__" = None.
Proof.
  intros Hown Hproto. unfold apply_field, applyEncodedKeyValue.
  destruct (hash !! x) as [text|]; [|done].
  destruct (JSON_parse text) as [j|]; [|done]. simpl.
  destruct (decide (x = "__proto__")) as [->|Hne].
  - rewrite obj_set_setter; [done | done |]. by rewrite Hproto.
  - rewrite obj_set_own by done. simpl. by rewrite lookup_insert_ne.
Qed.

Lemma apply_fields_spec ks st :
  let out := for_each ks apply_field st in
  out.2 = [] /\
  listeners out.1 = listeners st /\
  ("__proto__" ∉ ks -> proto (store out.1) = proto (store st)) /\
  forall key, key <> "__proto__" ->
    contents <$> (own (store out.1) !! key)
    = if decide (key ∈ ks)
      then match parsed key with
           | Some v => Some v
           | None => contents <$> (own (store st) !! key)
           end
      else contents <$> (own (store st) !! key).
Proof.
  revert st. induction ks as [|x ks IH]; intros st; cbv zeta.
  - split; [done|]. split; [done|]. split; [done|].
    intros key _. destruct (decide (key ∈ [])) as [Hk|]; [|done].
    by apply elem_of_nil in Hk.
  - rewrite for_each_cons.
    destruct (apply_field_spec x st) as (Ht & Hl & Hp & Hs).
    rewrite andthen_silent by done.
    destruct (IH (apply_field x st).1) as (Ht' & Hl' & Hp' & Hs').
    split; [done|]. split; [by rewrite Hl', Hl|]. split.
    { intros [Hx Hks]%not_elem_of_cons.
      rewrite Hp' by done. apply Hp. congruence. }
    intros key Hkey. rewrite Hs', Hs by done.
    destruct (decide (key = x)) as [->|Hne].
    + rewrite (decide_True (P := x ∈ x :: ks)) by left.
      destruct (parsed x); by destruct (decide (x ∈ ks)).
    + destruct (decide (key ∈ ks)) as [Hin|Hnin].
      * by rewrite (decide_True (P := key ∈ x :: ks)) by by right.
      * rewrite (decide_False (P := key ∈ x :: ks)); [done|].
        by intros [?|?]%elem_of_cons.
Qed.

Lemma apply_fields_proto ks st :
  NoDup ks ->
  own (store st) !! "__proto__" = None ->
  ("__proto__" ∈ ks -> proto (store st) = ProtoObject) ->
  own (store (for_each ks apply_field st).1) !! "__proto__" = None.
Proof.
  intros Hnd. revert st.
  induction Hnd as [|x ks Hx Hnd IH]; intros st Hown Hproto; [done|].
  rewrite for_each_cons.
  destruct (apply_field_spec x st) as (Ht & _ & Hp & _).
  rewrite andthen_silent by done.
  apply IH.
  - apply apply_field_proto; [done|]. intros ->. apply Hproto. left.
  - intros Hin. rewrite Hp.
    + apply Hproto. by right.
    + intros ->. done.
Qed.

Lemma NoDup_Object_keys : NoDup (Object_keys hash).
Proof. apply NoDup_fst_map_to_list. Qed.

Lemma elem_of_Object_keys key :
  key ∈ Object_keys hash <-> is_Some (hash !! key).
Proof.
  unfold Object_keys. rewrite list_elem_of_fmap. split.
  - intros ([k text] & -> & Hin%elem_of_map_to_list). eauto.
  - intros [text Hk]. exists (key, text). split; [done|].
    by apply elem_of_map_to_list.
Qed.

Lemma not_in_keys_parsed key :
  key ∉ Object_keys hash -> parsed key = None.
Proof.
  intros Hk. unfold parsed. case_bool_decide; [done|].
  destruct (hash !! key) as [text|] eqn:Hkey; [|done].
  exfalso. apply Hk, elem_of_Object_keys. eauto.
Qed.

(** Starting from the mirror that [pull] creates, the loop over
    [Object.keys(hash)] leaves exactly the fields whose text parses, the
    field [__proto__] apart. *)
Lemma bootstrap_loop st :
  store st = ∅ ->
  let out := for_each (Object_keys hash) apply_field st in
  out.2 = [] /\
  listeners out.1 = listeners st /\
  (forall key, contents <$> (own (store out.1) !! key) = parsed key) /\
  (hash !! "__proto__" = None -> proto (store out.1) = ProtoObject).
Proof.
  intros Hempty. cbv zeta.
  destruct (apply_fields_spec (Object_keys hash) st) as (Ht & Hl & Hp & Hs).
  split; [done|]. split; [done|]. split.
  - intros key. destruct (decide (key = "__proto__")) as [->|Hkey].
    + rewrite apply_fields_proto;
        [done | apply NoDup_Object_keys | by rewrite Hempty | by rewrite Hempty].
    + rewrite Hs, Hempty by done. cbn [own Obj_empty empty].
      rewrite lookup_empty. simpl.
      destruct (decide (key ∈ Object_keys hash)) as [Hk|Hk];
        [by destruct (parsed key) | by rewrite not_in_keys_parsed].
  - intros Hnone. rewrite Hp, Hempty; [done|].
    rewrite elem_of_Object_keys, Hnone. by intros [? [=]].
Qed.

End Bootstrap.

Lemma call_onSuccess_mark `{Runtime} JSON_stringify f st :
  exists rest, (call_onSuccess JSON_stringify f st).2 = onSuccess_mark f :: rest.
Proof.
  destruct f as [|body]; simpl.
  - rewrite emit_unfold. simpl. eauto.
  - rewrite andthen_effect by done. simpl. eauto.
Qed.

Lemma hgetall_callback_failure `{Runtime} JSON_parse JSON_stringify onSuccess
    err hash st :
  wf_listeners st -> truthy err = true ->
  hgetall_callback JSON_parse JSON_stringify onSuccess err hash st
  = (st, [Quit; Emit "error" ⟦err⟧]).
Proof.
  intros Hwf Herr. unfold hgetall_callback.
  rewrite andthen_effect, Herr by done.
  unfold emitError. by rewrite emit_other.
Qed.

Lemma hgetall_callback_success `{Runtime} JSON_parse JSON_stringify onSuccess
    err hash st :
  wf_listeners st -> truthy err = false ->
  let st2 := match hash with
             | Some h => (for_each (Object_keys h) (apply_field JSON_parse h) st).1
             | None => st
             end in
  let o := match onSuccess with
           | Some f => call_onSuccess JSON_stringify f st2
           | None => (st2, [])
           end in
  hgetall_callback JSON_parse JSON_stringify onSuccess err hash st
  = (o.1, Quit :: Emit "updated" ⟦ ⟧ :: o.2).
Proof.
  intros Hwf Herr st2 o.
  assert (
    (match hash with
     | Some h => for_each (Object_keys h) (apply_field JSON_parse h)
     | None => skip
     end st).2 = [] /\
    (match hash with
     | Some h => for_each (Object_keys h) (apply_field JSON_parse h)
     | None => skip
     end st).1 = st2 /\ wf_listeners st2) as (Hloop & Hst2 & Hwf2).
  { subst st2. destruct hash as [h|]; [|done].
    pose proof (apply_fields_spec JSON_parse h (Object_keys h) st) as Hspec.
    cbv zeta in Hspec. destruct Hspec as (Ht & Hl & _).
    split; [done|]. split; [done|]. unfold wf_listeners. by rewrite Hl. }
  unfold hgetall_callback.
  rewrite andthen_effect, Herr by done.
  rewrite andthen_silent, Hst2 by done.
  rewrite andthen_unfold. unfold emitUpdated.
  rewrite emit_other by done. cbn [fst snd thrown last].
  subst o. by destruct onSuccess.
Qed.

(** C6: on a registry whose bus holds only what [watch] registers (listeners
    of ["set"] and ["clear"]), [pull] empties the mirror and sends the
    [hgetall] request for the hash of the namespace, with a continuation
    that holds the completion callback.  When the reply carries an error, that continuation closes
    the client and emits ["error"], and that is all: the mirror stays empty,
    no ["updated"] is emitted and the completion callback is not called.
    When the reply carries no error, ["updated"] is emitted and then the
    completion callback, if one was given, is called; no ["error"] is
    emitted. *)
Theorem pull_failure_and_success `{Runtime}
    JSON_parse JSON_stringify encode st onSuccess err hash :
  wf_listeners st ->
  exists st1 k,
    pull onSuccess st
    = (st1, [Hgetall ("config:" +:+ keyspace st) k]) /\
    k = OnHgetall onSuccess /\
    store st1 = ∅ /\
    let out := resume JSON_parse JSON_stringify encode k err hash st1 in
    (truthy err = true -> out = (st1, [Quit; Emit "error" ⟦err⟧])) /\
    (truthy err = false ->
     exists rest,
       out.2 = Quit :: Emit "updated" ⟦ ⟧ :: rest /\
       (Emit "error" ⟦err⟧ ∉ out.2) /\
       (onSuccess = None -> rest = []) /\
       (forall f, onSuccess = Some f ->
                  exists rest', rest = onSuccess_mark f :: rest')).
Proof.
  intros Hwf. eexists _, _. split; [apply pull_unfold|].
  split; [reflexivity|]. split; [reflexivity|].
  set (st1 := with_store ∅ st). cbv zeta.
  assert (Hwf1 : wf_listeners st1) by done.
  split.
  - intros Herr. cbn [resume]. by apply hgetall_callback_failure.
  - intros Herr. cbn [resume].
    rewrite (hgetall_callback_success JSON_parse JSON_stringify onSuccess
               err hash st1 Hwf1 Herr).
    cbn [snd]. eexists. split; [reflexivity|]. split; [|split].
    + rewrite !not_elem_of_cons. split; [done|]. split; [done|].
      destruct onSuccess as [f|]; [|apply not_elem_of_nil].
      intros Hin.
      match type of Hin with _ ∈ ?t =>
        assert (Hem : ("error", ⟦err⟧) ∈ emitted t) end.
      { unfold emitted. apply list_elem_of_omap. eexists. split; [exact Hin|].
        done. }
      revert Hem. destruct f as [|body]; cbn [call_onSuccess].
      * rewrite emitted_emit. by intros [=]%list_elem_of_singleton.
      * rewrite andthen_effect by done. cbn [snd].
        match goal with |- _ ∈ emitted (?e :: ?t) -> _ =>
          change (emitted (e :: t)) with (emitted ([e] ++ t)) end.
        rewrite emitted_app, perform_silent. by intros ?%elem_of_nil.
    + by intros ->.
    + intros f ->. apply call_onSuccess_mark.
Qed.

(** C5: on a registry whose bus holds only what [watch] registers (listeners
    of ["set"] and ["clear"]), [pull] sends the [hgetall] request for the
    hash of the namespace on a mirror it has emptied.  When the reply, handled on that registry,
    carries no error and the hash [hash], then at the moment ["updated"] is
    emitted (and the completion callback, if any, is entered) the mirror
    holds, for every field of [hash] whose text parses, the parsed value,
    and nothing else: a field whose text does not parse is not inserted, and
    no ["error"] is emitted.  (A field named [__proto__] is not inserted
    either; without such a field the prototype of the mirror is the
    original one.)  For the hash [{a: "1", b: "[1,2]", c: "not-json"}] the
    mirror is [{a: 1, b: [1,2]}], without [c]. *)
Theorem pull_drops_unparsable `{Runtime}
    JSON_parse JSON_stringify encode st onSuccess err hash :
  wf_listeners st ->
  truthy err = false ->
  exists st1 k st2,
    pull onSuccess st
    = (st1, [Hgetall ("config:" +:+ keyspace st) k]) /\
    k = OnHgetall onSuccess /\
    resume JSON_parse JSON_stringify encode k err (Some hash) st1
    = (let o := match onSuccess with
                | Some f => call_onSuccess JSON_stringify f st2
                | None => (st2, [])
                end in
       (o.1, Quit :: Emit "updated" ⟦ ⟧ :: o.2)) /\
    (forall key,
       contents <$> (own (store st2) !! key) = parsed JSON_parse hash key) /\
    (forall key text,
       hash !! key = Some text -> JSON_parse text = None ->
       own (store st2) !! key = None) /\
    (hash !! "__proto__" = None -> proto (store st2) = ProtoObject) /\
    (JSON_parse "1" = Some (JNum 1) ->
     JSON_parse "[1,2]" = Some (JArr [JNum 1; JNum 2]) ->
     JSON_parse "not-json" = None ->
     hash = {[ "a" := "1"; "b" := "[1,2]"; "c" := "not-json" ]} ->
     contents <$> own (store st2)
     = {[ "a" := VNum 1; "b" := VObject 0 (JArr [JNum 1; JNum 2]) ]} /\
     proto (store st2) = ProtoObject).
Proof.
  intros Hwf Herr. eexists _, _, _. split; [apply pull_unfold|].
  split; [reflexivity|].
  set (st1 := with_store ∅ st).
  assert (Hwf1 : wf_listeners st1) by done.
  cbn [resume].
  rewrite (hgetall_callback_success JSON_parse JSON_stringify onSuccess
             err (Some hash) st1 Hwf1 Herr).
  split; [reflexivity|].
  destruct (bootstrap_loop JSON_parse hash st1 eq_refl) as (_ & _ & Hs & Hp).
  cbv zeta in Hs, Hp.
  split; [exact Hs|]. split; [|split; [exact Hp|]].
  - intros key text Hk Hparse. specialize (Hs key).
    unfold parsed in Hs. rewrite Hk in Hs. simpl in Hs. rewrite Hparse in Hs.
    simpl in Hs. destruct (bool_decide _) in Hs;
      by destruct (own _ !! key).
  - intros H1 H2 H3 ->. split; [|by apply Hp].
    apply map_eq. intros key.
    rewrite lookup_fmap, Hs. unfold parsed.
    destruct (decide (key = "__proto__")) as [->|Hp'];
      [by rewrite bool_decide_true|].
    rewrite bool_decide_false by done.
    destruct (decide (key = "a")) as [->|Ha]; [by simplify_map_eq|].
    destruct (decide (key = "b")) as [->|Hb]; [by simplify_map_eq|].
    destruct (decide (key = "c")) as [->|Hc]; [by simplify_map_eq|].
    by simplify_map_eq.
Qed.

(** ** Watches *)

Lemma wf_listeners_watch key cb st :
  wf_listeners st -> wf_listeners (watch key cb st).1.
Proof.
  unfold wf_listeners, watch. cbv zeta.
  erewrite !andthen_nil by reflexivity. simpl. intros Hwf.
  rewrite !Forall_app, !Forall_singleton. simpl. auto.
Qed.

Lemma watch_unfold key cb st :
  watch key cb st
  = (with_listeners
       (listeners st ++ [("set", ListenerSet (length (watches st)));
                         ("clear", ListenerClear (length (watches st)))])
       (with_watches (watches st ++ [mkWatchEnv key cb false]) st),
     []).
Proof.
  unfold watch. cbv zeta. erewrite !andthen_nil by reflexivity.
  unfold on, modify. simpl. by rewrite <- app_assoc.
Qed.

Lemma invoke_unfold `{Runtime} JSON_stringify h cb arg st :
  invoke JSON_stringify h cb arg st
  = let out := for_each (callback_body cb arg) (perform JSON_stringify) st in
    (out.1, Invoke h (callback_id cb) arg :: out.2).
Proof. unfold invoke. by rewrite andthen_effect. Qed.

Lemma emit_set_invokes `{Runtime} JSON_stringify st h w ls (v : value)
    previous :
  listeners_of "set" st = ListenerSet h :: ls ->
  watches st !! h = Some w ->
  w_ended w = false ->
  exists rest,
    (emit JSON_stringify "set" ⟦VStr (w_key w); v; previous⟧ st).2
    = Emit "set" ⟦VStr (w_key w); v; previous⟧
      :: Invoke h (callback_id (w_onModified w)) v
      :: rest.
Proof.
  intros Hls Hw He.
  assert (Hrun : run_listener JSON_stringify (ListenerSet h)
                   ⟦VStr (w_key w); v; previous⟧ st
                 = invoke JSON_stringify h (w_onModified w) v st).
  { unfold run_listener. rewrite Hw, He. simpl.
    by rewrite bool_decide_true. }
  rewrite emit_unfold. cbv zeta. cbn [snd].
  rewrite Hls, for_each_cons, andthen_unfold, Hrun, invoke_unfold.
  cbv zeta. cbn [fst snd].
  destruct (thrown _); cbn [snd app]; eauto.
Qed.

(** C3, on the code: the closure that [watch] builds for clears is
    registered under ["clear"], and the class emits ["cleared"].  With a
    watch on [key] in place, neither the completion of a successful local
    [clear(key)] nor an inbound clear of [key] by another instance invokes
    the callback: the log holds the emissions and no invocation. *)
Theorem clear_notification_misses_watch `{Runtime}
    JSON_stringify encode decode st key cb message m :
  wf_listeners st ->
  let st1 := (watch key cb st).1 in
  hdel_callback JSON_stringify encode key VNull st1
  = (st1, [Publish (keySpaceChannel ChannelConfigClear st1)
                   (encode (uniqId st1) ⟦VStr key⟧);
           Quit; Emit "cleared" ⟦VStr key⟧; Emit "updated" ⟦ ⟧]) /\
  (decode message = Some m ->
   m_sender m <> uniqId st1 ->
   m_arguments m = [JStr key] ->
   (onSubscriberMessage JSON_stringify decode
      (keySpaceChannel ChannelConfigClear st1) message st1).2
   = [Emit "cleared" ⟦VStr key⟧; Emit "updated" ⟦ ⟧]).
Proof.
  intros Hwf st1.
  assert (Hwf1 : wf_listeners st1) by by apply wf_listeners_watch.
  split.
  - rewrite hdel_callback_unfold. cbn [truthy]. cbv zeta.
    by rewrite emitCleared_other.
  - intros Hm Hs Hargs.
    change (keySpaceChannel ChannelConfigClear st1)
      with ("ConfigClear:" +:+ keyspace st1).
    erewrite onSubscriberMessage_clear by done.
    by rewrite emitCleared_other.
Qed.

(** C9: in the log of any run of the registry, started on any registry,
    once the disposer of a watch has been called the callback of that
    watch is not invoked any more.  The run may hold local writes and
    clears, replies of redis, inbound broadcasts, and disposers called by
    other callbacks in the middle of an emission, when the closures of the
    watch are still in the copy of the listener array that is being
    walked. *)
Theorem disposed_watch_never_fires `{Runtime}
    JSON_parse JSON_stringify encode decode st inputs h tr1 tr2 :
  (run JSON_parse JSON_stringify encode decode inputs st).2
  = tr1 ++ Disposed h :: tr2 ->
  h ∉ handles_invoked tr2.
Proof.
  intros Htr.
  destruct (quiet_after_run JSON_parse JSON_stringify encode decode
              h inputs st) as (_ & Hres & _).
  by apply (Hres tr1 tr2).
Qed.

(** ** The claims at concrete inputs *)

Module Examples.

Import Samples.

Lemma intact_fresh : intact (store fresh).
Proof. by split. Defined.

Lemma set_completion_example :
  strict_eq (read "k" after_set) (VNum 2) = false /\
  set Demo.stringify "k" (VNum 2) after_set
  = (after_second_set,
     [Hset "config:global" "k" (Some "2") (OnHset "k" (VNum 2) (VNum 1))]) /\
  (exists rest,
     (resume Demo.parse Demo.stringify Demo.encode
        (OnHset "k" (VNum 2) (VNum 1)) VNull None after_second_set).2
     = Publish "ConfigSet:global"
               (Demo.encode "me" ⟦VStr "k"; VNum 2; VNum 1⟧)
       :: Quit :: rest) /\
  emitted (resume Demo.parse Demo.stringify Demo.encode
             (OnHset "k" (VNum 2) (VNum 1)) VNull None after_second_set).2
  = [("set", ⟦VStr "k"; VNum 2; VNum 1⟧); ("updated", ⟦ ⟧)].
Proof.
  split; [reflexivity|].
  destruct (set_completion_publishes_then_notifies
              Demo.parse Demo.stringify Demo.encode after_set "k" (VNum 2)
              after_second_set VNull None eq_refl)
    as (_ & _ & Hset & Hpublish & _ & Hsuccess).
  split; [exact Hset|]. split; [exact Hpublish|].
  destruct (Hsuccess eq_refl) as (rest & Hemitted & [->|[_ Hthrown]]).
  - exact Hemitted.
  - vm_compute in Hthrown. discriminate Hthrown.
Defined.

Lemma self_echo_example :
  Demo.decode own_message
  = Some (mkMessage "me" [JStr "k"; JNum 5; JNull]) /\
  onSubscriberMessage Demo.stringify Demo.decode "ConfigSet:global"
    own_message after_set = (after_set, []).
Proof.
  split; [vm_compute; reflexivity|].
  apply (self_echo_discarded Demo.stringify Demo.decode after_set
           "ConfigSet:global" own_message
           (mkMessage "me" [JStr "k"; JNum 5; JNull]));
    vm_compute; reflexivity.
Defined.

Lemma clear_misses_watch_example :
  wf_listeners fresh /\
  hdel_callback Demo.stringify Demo.encode "k" VNull (watch "k" noop fresh).1
  = ((watch "k" noop fresh).1,
     [Publish "ConfigClear:global" (Demo.encode "me" ⟦VStr "k"⟧);
      Quit; Emit "cleared" ⟦VStr "k"⟧; Emit "updated" ⟦ ⟧]).
Proof.
  assert (Hwf : wf_listeners fresh) by constructor.
  split; [exact Hwf|].
  apply (clear_notification_misses_watch Demo.stringify Demo.encode
           Demo.decode fresh "k" noop other_clear
           (mkMessage "other" [JStr "k"]) Hwf).
Defined.

Lemma set_twice_example :
  (set Demo.stringify "k" (VNum 1) fresh).2
  = [Hset "config:global" "k" (Some "1") (OnHset "k" (VNum 1) VUndefined)] /\
  set Demo.stringify "k" (VNum 1) after_set = (after_set, []).
Proof.
  apply (set_strictly_equal_is_noop Demo.stringify fresh "k" (VNum 1));
    [done | reflexivity | reflexivity].
Defined.

Lemma pull_example :
  wf_listeners after_set /\
  pull None after_set
  = (fresh, [Hgetall "config:global" (OnHgetall None)]) /\
  contents <$>
    own (store (resume Demo.parse Demo.stringify Demo.encode (OnHgetall None)
                  VNull (Some sample_hash) fresh).1)
  = {[ "a" := VNum 1; "b" := VObject 0 (JArr [JNum 1; JNum 2]) ]}.
Proof.
  assert (Hwf : wf_listeners after_set) by constructor.
  split; [exact Hwf|].
  destruct (pull_drops_unparsable Demo.parse Demo.stringify Demo.encode
              after_set None VNull sample_hash Hwf eq_refl)
    as (st1 & k & st2 & Hpull & Hk & Hout & _ & _ & _ & Hmirror).
  change (pull None after_set)
    with (fresh, [Hgetall "config:global" (OnHgetall None)]) in Hpull.
  injection Hpull as <- <-.
  split; [reflexivity|].
  cbv zeta in Hout. rewrite Hout. cbn [fst].
  apply Hmirror; reflexivity.
Defined.

Lemma pull_failure_example :
  wf_listeners after_set /\
  pull (Some EmitReady) after_set
  = (fresh, [Hgetall "config:global" (OnHgetall (Some EmitReady))]) /\
  resume Demo.parse Demo.stringify Demo.encode (OnHgetall (Some EmitReady))
    (VStr "ECONNREFUSED") None fresh
  = (fresh, [Quit; Emit "error" ⟦VStr "ECONNREFUSED"⟧]).
Proof.
  assert (Hwf : wf_listeners after_set) by constructor.
  split; [exact Hwf|].
  destruct (pull_failure_and_success Demo.parse Demo.stringify Demo.encode
              after_set (Some EmitReady) (VStr "ECONNREFUSED") None Hwf)
    as (st1 & k & Hpull & Hk & _ & Hfailure & _).
  change (pull (Some EmitReady) after_set)
    with (fresh, [Hgetall "config:global" (OnHgetall (Some EmitReady))])
    in Hpull.
  injection Hpull as <- <-.
  split; [reflexivity|]. by apply Hfailure.
Defined.

Lemma inbound_proto_example :
  Demo.decode other_proto
  = Some (mkMessage "other" [JStr "__proto__"; JNum 1; JNull]) /\
  exists st1 rest,
    onSubscriberMessage Demo.stringify Demo.decode "ConfigSet:global"
      other_proto fresh
    = emitSet Demo.stringify (VStr "__proto__") (VNum 1)
        (Native "Object.prototype") st1 /\
    own (store st1) !! "__proto__" = None /\
    emitted
      (onSubscriberMessage Demo.stringify Demo.decode "ConfigSet:global"
         other_proto fresh).2
    = ("set", ⟦VStr "__proto__"; VNum 1; Native "Object.prototype"⟧) :: rest.
Proof.
  assert (Hd : Demo.decode other_proto
               = Some (mkMessage "other" [JStr "__proto__"; JNum 1; JNull]))
    by (vm_compute; reflexivity).
  split; [exact Hd|].
  destruct (inbound_set_misses_proto_key Demo.stringify Demo.decode fresh
              other_proto (mkMessage "other" [JStr "__proto__"; JNum 1; JNull])
              (JNum 1) JNull Hd ltac:(done) eq_refl eq_refl eq_refl)
    as (st1 & rest & Hout & _ & Hown & _ & Hemitted).
  exists st1, rest. split; [exact Hout|]. split; [exact Hown | exact Hemitted].
Defined.

Lemma get_throws_example :
  intact (store fresh) /\
  get "hasOwnProperty" (VStr "fallback") fresh = Some (Val (VStr "fallback")) /\
  own (store shadowed) !! "hasOwnProperty" = Some (VNum 1) /\
  get "hasOwnProperty" (VStr "fallback") shadowed = None /\
  get "k" (VStr "fallback") shadowed = None.
Proof.
  split; [exact intact_fresh|].
  destruct (get_throws_once_hasOwnProperty_is_mirrored Demo.stringify fresh
              (VNum 1) (VStr "fallback") intact_fresh)
    as (Hbefore & Hown & Hafter).
  split; [exact Hbefore|]. split; [exact Hown|].
  split; [apply Hafter | apply Hafter].
Defined.

Lemma clear_throws_example :
  intact (store fresh) /\
  own (store fresh) !! "k" = None /\
  clear "k" fresh = (fresh, [Hdel "config:global" "k" (OnHdel "k")]) /\
  own (store shadowed) !! "k" = None /\
  clear "k" shadowed = (shadowed, [Throw]).
Proof.
  split; [exact intact_fresh|]. split; [reflexivity|].
  apply (clear_throws_once_hasOwnProperty_is_mirrored Demo.stringify fresh
           (VNum 1) "k" intact_fresh eq_refl).
  done.
Defined.

Lemma in_flight_example :
  (run Demo.parse Demo.stringify Demo.encode Demo.decode in_flight fresh).2
  = [Hset "config:global" "k" (Some "1") (OnHset "k" (VNum 1) VUndefined);
     Publish "ConfigSet:global"
             (Demo.encode "me" ⟦VStr "k"; VNum 1; VUndefined⟧);
     Quit;
     Emit "set" ⟦VStr "k"; VNum 1; VUndefined⟧;
     Invoke 0 8 (VNum 1)]
    ++ Disposed 1
    :: [Emit "updated" ⟦ ⟧;
        Emit "set" ⟦VStr "k"; VNum 5; VNum 1⟧;
        Invoke 0 8 (VNum 5);
        Disposed 1;
        Emit "updated" ⟦ ⟧] /\
  1%nat ∉ handles_invoked
            [Emit "updated" ⟦ ⟧;
             Emit "set" ⟦VStr "k"; VNum 5; VNum 1⟧;
             Invoke 0 8 (VNum 5);
             Disposed 1;
             Emit "updated" ⟦ ⟧].
Proof.
  assert (Hrun :
    (run Demo.parse Demo.stringify Demo.encode Demo.decode in_flight fresh).2
    = [Hset "config:global" "k" (Some "1") (OnHset "k" (VNum 1) VUndefined);
       Publish "ConfigSet:global"
               (Demo.encode "me" ⟦VStr "k"; VNum 1; VUndefined⟧);
       Quit;
       Emit "set" ⟦VStr "k"; VNum 1; VUndefined⟧;
       Invoke 0 8 (VNum 1)]
      ++ Disposed 1
      :: [Emit "updated" ⟦ ⟧;
          Emit "set" ⟦VStr "k"; VNum 5; VNum 1⟧;
          Invoke 0 8 (VNum 5);
          Disposed 1;
          Emit "updated" ⟦ ⟧]) by (vm_compute; reflexivity).
  split; [exact Hrun|].
  exact (disposed_watch_never_fires Demo.parse Demo.stringify Demo.encode
           Demo.decode fresh in_flight 1%nat _ _ Hrun).
Defined.

End Examples.

(** ** A second induction, with the public methods as elementary steps

    Here [R] is asked of each public method as a whole, of each effect of a
    continuation, and of the writes of the bootstrap and of the inbound
    handler; it then holds of every run.  This leaves room for properties
    that tell the effects of one method from those of another. *)

Section Nested.

Context {rt : Runtime}.

Variable JSON_parse : string -> option json.
Variable JSON_stringify : value -> option string.
Variable MessageModel_encode : string -> list any -> string.
Variable MessageModel_decode : string -> option Message.

Variable R : Registry -> Registry * list Effect -> Prop.

Local Abbreviation holds := (satisfies R).

Hypothesis N_skip : forall st, R st (st, []).
Hypothesis N_seq : forall st st1 t1 st2 t2,
  R st (st1, t1) -> R st1 (st2, t2) -> R st (st2, t1 ++ t2).
Hypothesis N_perform : forall c, holds (perform JSON_stringify c).
Hypothesis N_invoke : forall st h w arg,
  watches st !! h = Some w -> w_ended w = false ->
  R st (st, [Invoke h (callback_id (w_onModified w)) arg]).
Hypothesis N_emit : forall st event args, R st (st, [Emit event args]).
Hypothesis N_publish : forall st c args,
  c = ChannelConfigSet \/ c = ChannelConfigClear ->
  R st (st, [Publish (keySpaceChannel c st)
                     (MessageModel_encode (uniqId st) args)]).
Hypothesis N_quit : forall st, R st (st, [Quit]).
Hypothesis N_onSuccess : forall st, R st (st, [InvokeOnSuccess]).
Hypothesis N_throw : forall st, R st (st, [Throw]).
Hypothesis N_store : forall st s, R st (with_store s st, []).
Hypothesis N_heap : forall st n, R st (with_heap_next n st, []).

Lemma nested_seq a b : holds a -> holds b -> holds (a ;; b).
Proof. by apply sat_andthen. Qed.

Lemma nested_calls calls : holds (for_each calls (perform JSON_stringify)).
Proof. by apply sat_for_each. Qed.

Lemma nested_run_listener l args : holds (run_listener JSON_stringify l args).
Proof.
  intros st. unfold run_listener.
  assert (Hinv : forall h w arg,
            watches st !! h = Some w -> w_ended w = false ->
            R st (invoke JSON_stringify h (w_onModified w) arg st)).
  { intros h w arg Hw He. unfold invoke.
    eapply R_andthen;
      [exact N_seq | reflexivity | by apply N_invoke | apply nested_calls]. }
  destruct l as [h|h];
    (destruct (watches st !! h) as [w|] eqn:Hw; [|apply N_skip];
     destruct (w_ended w) eqn:He; [apply N_skip|];
     destruct (strict_eq _ _); [by apply Hinv | apply N_skip]).
Qed.

Lemma nested_emit event args : holds (emit JSON_stringify event args).
Proof.
  intros st. unfold emit.
  eapply R_andthen; [exact N_seq | reflexivity | apply N_emit |].
  apply sat_for_each; [done..|]. intros l. apply nested_run_listener.
Qed.

Lemma nested_emitSet key v previous :
  holds (emitSet JSON_stringify key v previous).
Proof. apply nested_seq; apply nested_emit. Qed.

Lemma nested_emitCleared key : holds (emitCleared JSON_stringify key).
Proof. apply nested_seq; apply nested_emit. Qed.

Lemma nested_call_onSuccess f : holds (call_onSuccess JSON_stringify f).
Proof.
  destruct f as [|body]; simpl; [apply nested_emit|].
  apply nested_seq; [intros st; apply N_onSuccess | apply nested_calls].
Qed.

Lemma nested_apply_field hash key : holds (apply_field JSON_parse hash key).
Proof.
  intros st. unfold apply_field, applyEncodedKeyValue.
  destruct (hash !! key) as [text|]; [|apply N_skip].
  destruct (JSON_parse text) as [j|]; [|apply N_skip].
  change (@nil Effect) with (@nil Effect ++ []).
  eapply N_seq; [apply N_store | apply N_heap].
Qed.

Lemma nested_hgetall_callback onSuccess err hash :
  holds (hgetall_callback JSON_parse JSON_stringify onSuccess err hash).
Proof.
  unfold hgetall_callback.
  apply nested_seq; [intros st; apply N_quit|].
  destruct (truthy err); [apply nested_emit|].
  apply nested_seq.
  { destruct hash as [h|]; [|intros st; apply N_skip].
    apply sat_for_each; [done..|]. intros key. apply nested_apply_field. }
  apply nested_seq; [apply nested_emit|].
  destruct onSuccess; [apply nested_call_onSuccess | intros st; apply N_skip].
Qed.

Lemma nested_hset_callback key v previous err :
  holds (hset_callback JSON_stringify MessageModel_encode key v previous err).
Proof.
  unfold hset_callback.
  apply nested_seq; [intros st; apply N_publish; by left|].
  apply nested_seq; [intros st; apply N_quit|].
  destruct (truthy err); [apply nested_emit | apply nested_emitSet].
Qed.

Lemma nested_hdel_callback key err :
  holds (hdel_callback JSON_stringify MessageModel_encode key err).
Proof.
  unfold hdel_callback.
  apply nested_seq; [intros st; apply N_publish; by right|].
  apply nested_seq; [intros st; apply N_quit|].
  destruct (truthy err); [apply nested_emit | apply nested_emitCleared].
Qed.

Lemma nested_onSubscriberMessage channel message :
  holds (onSubscriberMessage JSON_stringify MessageModel_decode
           channel message).
Proof.
  intros st. unfold onSubscriberMessage.
  destruct (MessageModel_decode message) as [m|]; [|apply N_throw].
  destruct (bool_decide _); [apply N_skip|]. cbv zeta.
  repeat case_bool_decide.
  - match goal with |- R _ ?x =>
      rewrite (surjective_pairing x), <- (app_nil_l x.2) end.
    apply R_then; [done | apply N_heap|].
    apply nested_seq; [intros st'; apply N_store | apply nested_emitSet].
  - match goal with |- R _ ?x =>
      rewrite (surjective_pairing x), <- (app_nil_l x.2) end.
    apply R_then; [done | apply N_heap|].
    apply nested_seq; [intros st'; apply N_store | apply nested_emitCleared].
  - apply N_heap.
Qed.

Lemma nested_step i :
  holds (step JSON_parse JSON_stringify MessageModel_encode
              MessageModel_decode i).
Proof.
  destruct i as [c|k err hash|channel message|err]; simpl.
  - apply N_perform.
  - destruct k; simpl;
      auto using nested_hgetall_callback, nested_hset_callback,
                 nested_hdel_callback.
  - apply nested_onSubscriberMessage.
  - apply nested_emit.
Qed.

Lemma nested_run inputs :
  holds (run JSON_parse JSON_stringify MessageModel_encode
             MessageModel_decode inputs).
Proof.
  induction inputs as [|i inputs IH]; [intros st; apply N_skip|].
  apply sat_turn_then; [done | apply nested_step | exact IH].
Qed.

End Nested.

(** ** The accessor and the methods on a mirror that finds [hasOwnProperty] *)

Lemma read_intact_not_null `{Runtime} key st :
  intact (store st) -> own (store st) !! key = None ->
  strict_eq (read key st) VNull = false.
Proof.
  intros [Hp _] Hown. unfold read.
  rewrite obj_get_inherited, Hp, inherited_Object_prototype by done.
  by repeat case_bool_decide.
Qed.

Lemma set_intact `{Runtime} JSON_stringify key v st :
  intact (store st) -> key <> "__proto__" -> key <> "hasOwnProperty" ->
  intact (store (set JSON_stringify key v st).1).
Proof.
  intros Hint H1 H2. unfold set. cbv zeta.
  destruct (strict_eq _ _); [done|]. by apply intact_obj_set.
Qed.

(** X20: on a mirror object as [{}] creates it (its prototype is
    [Object.prototype] and it has no own property [hasOwnProperty]),
    [get(key, defaultValue)] returns the mirrored value when the key is
    mirrored, also when that value is [null] or otherwise falsy, and
    [defaultValue] when it is not; it only reads the registry.  For a key
    other than [__proto__] and [hasOwnProperty], after [set(key, null)] the
    call [get(key, "fallback")] returns [null]. *)
Theorem get_present_or_default `{Runtime} JSON_stringify st key defaultValue :
  intact (store st) ->
  (forall v, own (store st) !! key = Some v ->
             get key defaultValue st = Some (Val v)) /\
  (own (store st) !! key = None ->
   get key defaultValue st = Some (Val defaultValue)) /\
  (key <> "__proto__" -> key <> "hasOwnProperty" ->
   get key (VStr "fallback") (set JSON_stringify key VNull st).1
   = Some (Val VNull)).
Proof.
  intros Hint. split; [|split].
  - intros v Hv. rewrite get_found by by apply intact_finds. by rewrite Hv.
  - intros Hv. rewrite get_found by by apply intact_finds. by rewrite Hv.
  - intros H1 H2.
    rewrite get_found by by apply intact_finds, set_intact.
    unfold set. cbv zeta.
    destruct (strict_eq (read key st) VNull) eqn:Heq; cbn [fst].
    + destruct (own (store st) !! key) as [p|] eqn:Hp.
      * unfold read in Heq. rewrite (obj_get_own _ _ p) in Heq by done.
        by destruct p.
      * by rewrite read_intact_not_null in Heq.
    + cbn [store with_store]. rewrite own_obj_set by done.
      by rewrite decide_True.
Qed.

Lemma clear_found `{Runtime} key st :
  finds_hasOwnProperty (store st) = true ->
  clear key st
  = (match own (store st) !! key with
     | Some _ => with_store (obj_delete key (store st)) st
     | None => st
     end,
     [Hdel ("config:" +:+ keyspace st) key (OnHdel key)]).
Proof.
  intros Hf. unfold clear, obj_hasOwnProperty. rewrite Hf.
  destruct (own (store st) !! key) as [v|] eqn:Hk.
  - by rewrite bool_decide_true by eauto.
  - rewrite bool_decide_false; [done|]. by intros [? [=]].
Qed.

(** X21: when the mirror object finds the built-in [hasOwnProperty] (it has
    no own property of that name and its prototype chain leads to
    [Object.prototype]), [clear(key)] on a key that is not mirrored leaves
    the registry as it is but still sends the [hdel] request; when the
    request completes, [[key]] is published on the ["clear"] channel of the
    namespace first, and then ["error"] alone is emitted if the deletion
    failed, and ["cleared"] followed by ["updated"] if it succeeded (the
    whole log is given for a registry whose listeners are those of the
    class).  By contrast, [set] with a value strictly equal to what the
    mirror gives does nothing at all. *)
Theorem clear_absent_still_propagates `{Runtime}
    JSON_parse JSON_stringify encode st key st' err hash :
  finds_hasOwnProperty (store st) = true ->
  own (store st) !! key = None ->
  let tr := (resume JSON_parse JSON_stringify encode
                    (OnHdel key) err hash st').2 in
  clear key st = (st, [Hdel ("config:" +:+ keyspace st) key (OnHdel key)]) /\
  (exists rest,
     tr = Publish ("ConfigClear:" +:+ keyspace st')
                  (encode (uniqId st') ⟦VStr key⟧)
          :: Quit :: rest) /\
  (truthy err = true -> emitted tr = [("error", ⟦err⟧)]) /\
  (truthy err = false ->
   exists rest,
     emitted tr = ("cleared", ⟦VStr key⟧) :: rest /\
     (rest = [("updated", ⟦ ⟧)] \/ rest = [] /\ thrown tr = true)) /\
  (truthy err = false -> wf_listeners st' ->
   tr = [Publish ("ConfigClear:" +:+ keyspace st')
                 (encode (uniqId st') ⟦VStr key⟧);
         Quit; Emit "cleared" ⟦VStr key⟧; Emit "updated" ⟦ ⟧]) /\
  (forall v : value, strict_eq (read key st) v = true ->
                     set JSON_stringify key v st = (st, [])).
Proof.
  intros Hf Habs tr. subst tr. cbn [resume].
  rewrite hdel_callback_unfold. cbv zeta. cbn [snd].
  split; [|split; [|split; [|split; [|split]]]].
  - rewrite clear_found by done. by rewrite Habs.
  - eauto.
  - intros ->. cbn [emitted omap]. apply emitted_emit.
  - intros ->. cbn [emitted omap].
    destruct (emitted_emitCleared JSON_stringify (VStr key) st')
      as (rest & Hrest & Hcases).
    cbv zeta in Hrest, Hcases.
    exists rest. split; [exact Hrest|].
    destruct Hcases as [?|[? Hthrown]]; [by left | right].
    split; [done|].
    rewrite !thrown_cons; [done|..];
      try discriminate; apply emitted_nonempty; by rewrite Hrest.
  - intros -> Hwf. by rewrite emitCleared_other.
  - intros v. apply set_noop.
Qed.

(** X22: for a key other than [__proto__], a message of another sender on
    the ["set"] channel that carries [[key, newValue, previousRemoteValue]]
    writes [newValue] into the mirror at [key] and then emits ["set"] with
    [newValue] and the value that [this.store[key]] gave before the write:
    the mirrored value when the key was mirrored, [undefined] when it was
    not (on a mirror with its original prototype and for a key that
    [Object.prototype] has no property for); ["updated"] follows unless an
    exception left a listener.  The previous value carried by the message
    is not used.  When no watch is registered, the mirror at the end is the
    mirror with that one write and the log holds the two emissions. *)
Theorem inbound_set_overwrites `{Runtime} JSON_stringify decode st message m
    key newValue prevRValue :
  decode message = Some m ->
  m_sender m <> uniqId st ->
  m_arguments m = [JStr key; newValue; prevRValue] ->
  key <> "__proto__" ->
  let v := of_json (heap_next st + 1) newValue in
  let prevLValue := read key st in
  let out := onSubscriberMessage JSON_stringify decode
               ("ConfigSet:" +:+ keyspace st) message st in
  (forall p, own (store st) !! key = Some p -> prevLValue = Val p) /\
  (own (store st) !! key = None -> proto (store st) = ProtoObject ->
   ordinary key -> prevLValue = Val VUndefined) /\
  (exists st1,
     own (store st1) = <[key := v]> (own (store st)) /\
     proto (store st1) = proto (store st) /\
     out = emitSet JSON_stringify (VStr key) v prevLValue st1) /\
  (exists rest,
     emitted out.2 = ("set", ⟦VStr key; v; prevLValue⟧) :: rest /\
     (rest = [("updated", ⟦ ⟧)] \/ rest = [] /\ thrown out.2 = true)) /\
  (listeners st = [] ->
   own (store out.1) = <[key := v]> (own (store st)) /\
   out.2 = [Emit "set" ⟦VStr key; v; prevLValue⟧; Emit "updated" ⟦ ⟧]).
Proof.
  intros Hm Hs Hargs Hkey v prevLValue out. subst out.
  erewrite onSubscriberMessage_set by done. fold v prevLValue.
  rewrite obj_set_own by done.
  split; [|split; [|split; [|split]]].
  - intros p Hp. by apply obj_get_own.
  - intros Hown Hproto Hord. by apply read_unmirrored.
  - eexists. split; [|split; [|reflexivity]]; reflexivity.
  - apply emitted_emitSet.
  - intros Hl. by rewrite emitSet_no_listeners.
Qed.

(** ** Reads after writes *)

(** X1: on a mirror object as [{}] creates it (prototype
    [Object.prototype], no own property [hasOwnProperty]) and for a key
    other than [__proto__] and [hasOwnProperty]: after [set(key, v)],
    [get(key, d)] returns [v], or the mirrored value strictly equal to [v]
    when the call was a no-op, provided the key was mirrored or [v] is not
    [undefined]; the other keys read as before.  Setting [undefined] on a
    key that is not mirrored and that [Object.prototype] has no property
    for leaves it absent, and [get] returns the default. *)
Theorem get_after_set `{Runtime} JSON_stringify st key (v : value) d :
  intact (store st) ->
  key <> "__proto__" -> key <> "hasOwnProperty" ->
  let st' := (set JSON_stringify key v st).1 in
  (is_Some (own (store st) !! key) \/ v <> VUndefined ->
   get key d st' = Some (Val v) \/
   exists p, get key d st' = Some (Val p) /\ strict_eq p v = true) /\
  (own (store st) !! key = None -> v = VUndefined -> ordinary key ->
   get key d st' = Some (Val d)) /\
  (forall key', key' <> key -> get key' d st' = get key' d st).
Proof.
  intros Hint H1 H2 st'.
  assert (Hint' : intact (store st')) by by apply set_intact.
  assert (Hget : forall k, get k d st'
                           = Some (match own (store st') !! k with
                                   | Some x => Val x
                                   | None => Val d
                                   end))
    by (intros k; apply get_found; by apply intact_finds).
  assert (Hget0 : forall k, get k d st
                            = Some (match own (store st) !! k with
                                    | Some x => Val x
                                    | None => Val d
                                    end))
    by (intros k; apply get_found; by apply intact_finds).
  subst st'. unfold set in *. cbv zeta in *.
  destruct (strict_eq (read key st) v) eqn:Heq; cbn [fst] in *.
  - split; [|split].
    + intros Hcase. destruct (own (store st) !! key) as [p|] eqn:Hp.
      * right. exists p. rewrite Hget, Hp. split; [done|].
        unfold read in Heq. by rewrite (obj_get_own _ _ p) in Heq.
      * destruct Hcase as [[? [=]]|Hv]. exfalso.
        unfold read in Heq. destruct Hint as [Hproto _].
        rewrite obj_get_inherited, Hproto, inherited_Object_prototype
          in Heq by done.
        repeat case_bool_decide; simplify_eq/=. by destruct v.
    + intros Hown _ _. by rewrite Hget, Hown.
    + done.
  - cbn [store with_store] in *. split; [|split].
    + intros _. left. rewrite Hget, own_obj_set by done.
      by rewrite decide_True.
    + intros Hown -> Hord. exfalso.
      destruct Hint as [Hproto _].
      destruct (read_unmirrored key st Hown Hproto) as [Hread _].
      by rewrite Hread in Heq.
    + intros key' Hne. rewrite Hget, Hget0.
      rewrite obj_set_own by done. simpl. by rewrite lookup_insert_ne.
Qed.

(** X2: on a mirror object as [{}] creates it (prototype
    [Object.prototype], no own property [hasOwnProperty]), [clear(key)]
    sends exactly one [hdel] for the key, mirrored or not; after it
    [get(key, d)] returns the default, whatever was mirrored, and the other
    keys read as before.  Together with [set], for a key other than
    [__proto__] and [hasOwnProperty]: set then clear leaves the key
    unset. *)
Theorem get_after_clear `{Runtime} JSON_stringify st key v d :
  intact (store st) ->
  (clear key st).2 = [Hdel ("config:" +:+ keyspace st) key (OnHdel key)] /\
  get key d (clear key st).1 = Some (Val d) /\
  (forall key', key' <> key ->
     get key' d (clear key st).1 = get key' d st) /\
  (key <> "__proto__" -> key <> "hasOwnProperty" ->
   get key d (clear key (set JSON_stringify key v st).1).1 = Some (Val d)).
Proof.
  assert (Hintact : forall st0, intact (store st0) ->
                                intact (store (clear key st0).1)).
  { intros st0 Hint. rewrite clear_found by by apply intact_finds.
    destruct (own (store st0) !! key); [|done]. by apply intact_obj_delete. }
  assert (Hclear : forall st0, intact (store st0) ->
                               get key d (clear key st0).1 = Some (Val d)).
  { intros st0 Hint. rewrite get_found by by apply intact_finds, Hintact.
    rewrite clear_found by by apply intact_finds. cbn [fst].
    destruct (own (store st0) !! key) eqn:Hk; simpl.
    - by rewrite lookup_delete_eq.
    - by rewrite Hk. }
  intros Hint. split; [|split; [by apply Hclear | split]].
  - by rewrite clear_found by by apply intact_finds.
  - intros key' Hne.
    rewrite !get_found by (apply intact_finds; auto).
    rewrite clear_found by by apply intact_finds. cbn [fst].
    destruct (own (store st) !! key); simpl; [|done].
    by rewrite lookup_delete_ne.
  - intros H1 H2. by apply Hclear, set_intact.
Qed.

(** ** Failed persistence *)

Lemma hset_callback_failure `{Runtime} JSON_stringify encode key v previous
    err st :
  wf_listeners st -> truthy err = true ->
  hset_callback JSON_stringify encode key v previous err st
  = (st, [Publish ("ConfigSet:" +:+ keyspace st)
                  (encode (uniqId st) ⟦VStr key; v; previous⟧);
          Quit; Emit "error" ⟦err⟧]).
Proof.
  intros Hwf Herr. rewrite hset_callback_unfold, Herr. cbv zeta.
  unfold emitError. by rewrite emit_other.
Qed.

Lemma hdel_callback_failure `{Runtime} JSON_stringify encode key err st :
  wf_listeners st -> truthy err = true ->
  hdel_callback JSON_stringify encode key err st
  = (st, [Publish ("ConfigClear:" +:+ keyspace st)
                  (encode (uniqId st) ⟦VStr key⟧);
          Quit; Emit "error" ⟦err⟧]).
Proof.
  intros Hwf Herr. rewrite hdel_callback_unfold, Herr. cbv zeta.
  unfold emitError. by rewrite emit_other.
Qed.

(** X3: the mirror is not rolled back when persistence fails.  On a
    registry whose listeners are those of the class: after a [set] that is
    not a no-op and a reply with an error, the registry is the one the
    [set] left (for a key other than [__proto__], with the value that was
    never stored still mirrored), the change has been published all the
    same, and only ["error"] is emitted; likewise, when the mirror object
    finds the built-in [hasOwnProperty], a key cleared locally stays out of
    the mirror when the deletion fails. *)
Theorem failed_persistence_keeps_mirror `{Runtime}
    JSON_parse JSON_stringify encode st key (v : value) err hash :
  wf_listeners st ->
  strict_eq (read key st) v = false ->
  truthy err = true ->
  let st1 := (set JSON_stringify key v st).1 in
  let out := resume JSON_parse JSON_stringify encode
                    (OnHset key v (read key st)) err hash st1 in
  let st2 := (clear key st).1 in
  let out' := resume JSON_parse JSON_stringify encode
                     (OnHdel key) err hash st2 in
  (set JSON_stringify key v st).2
  = [Hset ("config:" +:+ keyspace st) key (JSON_stringify v)
          (OnHset key v (read key st))] /\
  out.1 = st1 /\
  (key <> "__proto__" -> own (store out.1) !! key = Some v) /\
  published out.2
  = [("ConfigSet:" +:+ keyspace st,
      encode (uniqId st) ⟦VStr key; v; read key st⟧)] /\
  emitted out.2 = [("error", ⟦err⟧)] /\
  (finds_hasOwnProperty (store st) = true ->
   (clear key st).2 = [Hdel ("config:" +:+ keyspace st) key (OnHdel key)] /\
   out'.1 = st2 /\
   own (store out'.1) !! key = None /\
   emitted out'.2 = [("error", ⟦err⟧)]).
Proof.
  intros Hwf Hne Herr st1 out st2 out'.
  assert (Hst1 : st1 = with_store (obj_set key v (store st)) st).
  { subst st1. by rewrite set_unfold. }
  assert (Hwf1 : wf_listeners st1) by by rewrite Hst1.
  split; [by rewrite set_unfold|].
  subst out. cbn [resume]. rewrite hset_callback_failure by done.
  cbn [fst snd published emitted omap].
  split; [done|]. split; [|split; [by rewrite Hst1 | split; [done|]]].
  { intros Hkey. rewrite Hst1. cbn [store with_store].
    rewrite own_obj_set by done. by rewrite decide_True. }
  intros Hf.
  assert (Hst2 : clear key st
                 = (st2, [Hdel ("config:" +:+ keyspace st) key (OnHdel key)])).
  { subst st2. by rewrite clear_found by done. }
  assert (Hwf2 : wf_listeners st2).
  { subst st2. rewrite clear_found by done. cbn [fst].
    by destruct (own (store st) !! key). }
  split; [by rewrite Hst2|].
  subst out'. cbn [resume]. rewrite hdel_callback_failure by done.
  cbn [fst snd emitted omap]. split; [done|]. split; [|done].
  subst st2. rewrite clear_found by done. cbn [fst].
  destruct (own (store st) !! key) eqn:Hk; simpl; [|done].
  by rewrite lookup_delete_eq.
Qed.

(** ** More on inbound broadcasts *)

(** X4: on a registry whose listeners are those of the class, a message of
    another sender on the ["clear"] channel whose first argument is [key]
    removes the key from the mirror and emits ["cleared"] with the key,
    then ["updated"]; nothing is sent to redis and nothing is published.
    [get(key, d)] then returns the default, provided the mirror object
    finds the built-in [hasOwnProperty], so that [get] does not throw. *)
Theorem inbound_clear_removes `{Runtime} JSON_stringify decode st message m
    key rest d :
  decode message = Some m ->
  m_sender m <> uniqId st ->
  m_arguments m = JStr key :: rest ->
  wf_listeners st ->
  let out := onSubscriberMessage JSON_stringify decode
               ("ConfigClear:" +:+ keyspace st) message st in
  store out.1 = obj_delete key (store st) /\
  own (store out.1) !! key = None /\
  out.2 = [Emit "cleared" ⟦VStr key⟧; Emit "updated" ⟦ ⟧] /\
  (finds_hasOwnProperty (store out.1) = true ->
   get key d out.1 = Some (Val d)).
Proof.
  intros Hm Hs Hargs Hwf out. subst out.
  erewrite onSubscriberMessage_clear by done.
  rewrite emitCleared_other by done. cbn [fst snd store with_store].
  split; [done|]. split; [apply lookup_delete_eq|]. split; [done|].
  intros Hf. rewrite get_found by done. cbn [store with_store own obj_delete].
  by rewrite lookup_delete_eq.
Qed.

Lemma channel_of_other_namespace c c' ks ks' :
  c = ChannelConfigSet \/ c = ChannelConfigClear ->
  c' = ChannelConfigSet \/ c' = ChannelConfigClear ->
  c +:+ ":" +:+ ks = c' +:+ ":" +:+ ks' -> c = c' /\ ks = ks'.
Proof.
  unfold ChannelConfigSet, ChannelConfigClear.
  intros [->| ->] [->| ->]; simpl; intros [=]; by subst.
Qed.

(** X5: instances of different namespaces do not hear each other.  A
    message on a ["set"] or ["clear"] channel of another namespace,
    whatever it holds and whoever sent it, changes neither the mirror nor
    the watches, emits nothing and invokes no callback.  The channels of
    one namespace are two different channels. *)
Theorem foreign_namespace_ignored `{Runtime}
    JSON_stringify decode st c ks message :
  keyspace st <> ks ->
  c = ChannelConfigSet \/ c = ChannelConfigClear ->
  let out := onSubscriberMessage JSON_stringify decode
               (c +:+ ":" +:+ ks) message st in
  store out.1 = store st /\
  listeners out.1 = listeners st /\
  watches out.1 = watches st /\
  emitted out.2 = [] /\
  handles_invoked out.2 = [] /\
  keySpaceChannel ChannelConfigSet st <> keySpaceChannel ChannelConfigClear st.
Proof.
  intros Hks Hc out.
  assert (Hlast : keySpaceChannel ChannelConfigSet st
                  <> keySpaceChannel ChannelConfigClear st).
  { unfold keySpaceChannel.
    intros [[=] _]%channel_of_other_namespace; auto. }
  subst out. unfold onSubscriberMessage.
  destruct (decode message) as [m|]; [|done].
  case_bool_decide; [done|]. cbv zeta.
  rewrite !bool_decide_false; [done|..].
  - unfold keySpaceChannel. simpl.
    intros [_ ?]%channel_of_other_namespace; auto.
  - unfold keySpaceChannel. simpl.
    intros [_ ?]%channel_of_other_namespace; auto.
Qed.

Lemma onSubscriberMessage_set_quiet `{Runtime} JSON_stringify decode st
    message m key newValue prevRValue :
  decode message = Some m ->
  m_sender m <> uniqId st ->
  m_arguments m = [JStr key; newValue; prevRValue] ->
  listeners st = [] ->
  onSubscriberMessage JSON_stringify decode
    ("ConfigSet:" +:+ keyspace st) message st
  = (with_store (obj_set key (of_json (heap_next st + 1) newValue) (store st))
       (with_heap_next (heap_next st + 3) st),
     [Emit "set" ⟦VStr key; of_json (heap_next st + 1) newValue; read key st⟧;
      Emit "updated" ⟦ ⟧]).
Proof.
  intros Hm Hs Hargs Hl.
  erewrite onSubscriberMessage_set by done.
  by rewrite emitSet_no_listeners.
Qed.

(** X6: on a registry with no watch registered and for a key other than
    [__proto__], a ["set"] message of another sender that carries the key
    and no value is applied all the same: the key becomes present in the
    mirror with the value [undefined], ["set"] is emitted with [undefined]
    as new value, and [get(key, d)] then returns [undefined], not the
    default (provided the mirror object finds the built-in
    [hasOwnProperty], so that [get] does not throw). *)
Theorem inbound_set_without_value `{Runtime} JSON_stringify decode st
    message m key d :
  decode message = Some m ->
  m_sender m <> uniqId st ->
  m_arguments m = [JStr key] ->
  listeners st = [] ->
  key <> "__proto__" ->
  let out := onSubscriberMessage JSON_stringify decode
               ("ConfigSet:" +:+ keyspace st) message st in
  own (store out.1) !! key = Some VUndefined /\
  out.2 = [Emit "set" ⟦VStr key; VUndefined; read key st⟧;
           Emit "updated" ⟦ ⟧] /\
  (finds_hasOwnProperty (store out.1) = true ->
   get key d out.1 = Some (Val VUndefined)).
Proof.
  intros Hm Hs Hargs Hl Hkey out. subst out.
  rewrite (onSubscriberMessage_other _ _ _ _ _ m) by done. cbv zeta.
  rewrite bool_decide_true by done.
  rewrite Hargs. cbn [decoded_arguments imap index lookup list_lookup
                      from_option id of_json to_property_key].
  rewrite emitSet_no_listeners by done. cbn [fst snd store with_store].
  assert (Hown : own (obj_set key VUndefined (store st)) !! key
                 = Some VUndefined).
  { rewrite own_obj_set by done. by rewrite decide_True. }
  split; [done|]. split; [done|].
  intros Hf. rewrite get_found by done. cbn [store with_store].
  by rewrite Hown.
Qed.

(** X7: the last message delivered wins.  On a registry with no watch
    registered and for a key other than [__proto__]: of two ["set"]
    messages of other senders for the same key, handled one after the
    other, the mirror keeps the value of the second, and the second ["set"]
    notification gives the value of the first as the previous value; no
    version or order of production is looked at. *)
Theorem last_delivered_wins `{Runtime} JSON_parse JSON_stringify encode decode
    st message1 m1 message2 m2 key j1 p1 j2 p2 :
  decode message1 = Some m1 -> m_sender m1 <> uniqId st ->
  m_arguments m1 = [JStr key; j1; p1] ->
  decode message2 = Some m2 -> m_sender m2 <> uniqId st ->
  m_arguments m2 = [JStr key; j2; p2] ->
  listeners st = [] ->
  key <> "__proto__" ->
  let channel := "ConfigSet:" +:+ keyspace st in
  let out := run JSON_parse JSON_stringify encode decode
               [Inbound channel message1; Inbound channel message2] st in
  let v1 := of_json (heap_next st + 1) j1 in
  let v2 := of_json (heap_next st + 4) j2 in
  own (store out.1) !! key = Some v2 /\
  out.2 = [Emit "set" ⟦VStr key; v1; read key st⟧; Emit "updated" ⟦ ⟧;
           Emit "set" ⟦VStr key; v2; v1⟧; Emit "updated" ⟦ ⟧].
Proof.
  intros Hm1 Hs1 Ha1 Hm2 Hs2 Ha2 Hl Hkey channel out v1 v2. subst out channel.
  unfold run. cbn [foldr]. rewrite !turn_then_unfold. cbn [step skip].
  rewrite (onSubscriberMessage_set_quiet _ _ st message1 m1 key j1 p1)
    by done.
  cbn [fst snd]. fold v1.
  set (st1 := with_store (obj_set key v1 (store st))
                (with_heap_next (heap_next st + 3) st)).
  change ("ConfigSet:" +:+ keyspace st) with ("ConfigSet:" +:+ keyspace st1).
  rewrite (onSubscriberMessage_set_quiet _ _ st1 message2 m2 key j2 p2)
    by done.
  cbn [fst snd app].
  assert (Hread : read key st1 = Val v1).
  { apply obj_get_own. subst st1. cbn [store with_store].
    rewrite own_obj_set by done. by rewrite decide_True. }
  rewrite Hread.
  replace (heap_next st1 + 1)%nat with (heap_next st + 4)%nat
    by (subst st1; simpl; lia).
  fold v2. split; [|done].
  cbn [skip fst store with_store]. rewrite own_obj_set by done.
  by rewrite decide_True.
Qed.

(** ** Acknowledgements out of order *)

Lemma hset_callback_no_listeners `{Runtime} JSON_stringify encode key v
    previous st :
  listeners st = [] ->
  hset_callback JSON_stringify encode key v previous VNull st
  = (st, [Publish ("ConfigSet:" +:+ keyspace st)
                  (encode (uniqId st) ⟦VStr key; v; previous⟧);
          Quit; Emit "set" ⟦VStr key; v; previous⟧; Emit "updated" ⟦ ⟧]).
Proof.
  intros Hl. rewrite hset_callback_unfold. cbn [truthy]. cbv zeta.
  by rewrite emitSet_no_listeners.
Qed.

(** X8: two writes of one key whose acknowledgements come back in the
    other order, on a registry with no watch registered and for a key other
    than [__proto__].  The mirror is written in call order and keeps the
    second value, while the publications go out in the order of the
    replies: the last message published carries the first value, so the
    instances that apply it end on a value the writer no longer mirrors.
    Nothing in the continuation compares the value it publishes with the
    mirror. *)
Theorem reordered_acknowledgements `{Runtime}
    JSON_parse JSON_stringify encode decode st key (v1 v2 : value) :
  listeners st = [] ->
  key <> "__proto__" ->
  strict_eq (read key st) v1 = false ->
  strict_eq v1 v2 = false ->
  let previous := read key st in
  let channel := "ConfigSet:" +:+ keyspace st in
  let out := run JSON_parse JSON_stringify encode decode
               [Api (CallSet key v1); Api (CallSet key v2);
                Reply (OnHset key v2 v1) VNull None;
                Reply (OnHset key v1 previous) VNull None] st in
  own (store out.1) !! key = Some v2 /\
  out.2 = [Hset ("config:" +:+ keyspace st) key (JSON_stringify v1)
                (OnHset key v1 previous);
           Hset ("config:" +:+ keyspace st) key (JSON_stringify v2)
                (OnHset key v2 v1);
           Publish channel (encode (uniqId st) ⟦VStr key; v2; v1⟧);
           Quit; Emit "set" ⟦VStr key; v2; v1⟧; Emit "updated" ⟦ ⟧;
           Publish channel (encode (uniqId st) ⟦VStr key; v1; previous⟧);
           Quit; Emit "set" ⟦VStr key; v1; previous⟧; Emit "updated" ⟦ ⟧].
Proof.
  intros Hl Hkey H1 H2 previous channel out. subst out channel previous.
  unfold run. cbn [foldr]. rewrite !turn_then_unfold.
  cbn [step perform resume skip].
  rewrite (set_unfold _ key v1 st) by done. cbn [fst snd].
  set (st1 := with_store (obj_set key v1 (store st)) st).
  assert (Hread : read key st1 = Val v1).
  { apply obj_get_own. subst st1. cbn [store with_store].
    rewrite own_obj_set by done. by rewrite decide_True. }
  rewrite (set_unfold _ key v2 st1) by by rewrite Hread.
  cbn [fst snd]. rewrite Hread.
  set (st2 := with_store (obj_set key v2 (store st1)) st1).
  rewrite (hset_callback_no_listeners _ _ key v2 v1 st2) by done.
  cbn [fst snd].
  rewrite (hset_callback_no_listeners _ _ key v1 _ st2) by done.
  cbn [skip fst snd app]. split; [|done].
  subst st2. cbn [store with_store]. rewrite own_obj_set by done.
  by rewrite decide_True.
Qed.

(** ** Two instances *)

(** X9: convergence of a peer.  When instance [A] completes a write of
    [key], what it publishes goes to the ["set"] channel of its namespace;
    an instance [B] of the same namespace with another identity and no
    watch registered that receives this payload, decoded by the codec to
    the sender [A] and the arguments [[key, j, _]], ends with [j] mirrored
    under [key], for a key other than [__proto__]: if [j] is the JSON form
    of the value written, [B] mirrors under [key] the contents that [A]
    wrote. *)
Theorem peer_converges `{Runtime} JSON_stringify encode decode
    A B key (v : value) previous err m j jp :
  keyspace A = keyspace B ->
  uniqId A <> uniqId B ->
  listeners B = [] ->
  key <> "__proto__" ->
  let payload := encode (uniqId A) ⟦VStr key; v; previous⟧ in
  let channel := "ConfigSet:" +:+ keyspace A in
  decode payload = Some m ->
  m_sender m = uniqId A ->
  m_arguments m = [JStr key; j; jp] ->
  contents v = of_json 0 j ->
  let out := onSubscriberMessage JSON_stringify decode channel payload B in
  (exists rest,
     (hset_callback JSON_stringify encode key v previous err A).2
     = Publish channel payload :: Quit :: rest) /\
  contents <$> (own (store out.1) !! key) = Some (contents v) /\
  out.2 = [Emit "set" ⟦VStr key; of_json (heap_next B + 1) j; read key B⟧;
           Emit "updated" ⟦ ⟧].
Proof.
  intros Hks Hid Hl Hkey payload channel Hm Hs Hargs Hv out.
  split.
  { rewrite hset_callback_unfold. cbv zeta. cbn [snd]. eauto. }
  subst out channel. rewrite Hks.
  rewrite (onSubscriberMessage_set_quiet _ _ B payload m key j jp);
    [|done|congruence|done|done].
  cbn [fst snd]. split; [|done].
  cbn [store with_store]. rewrite own_obj_set by done.
  rewrite decide_True by done. simpl. by rewrite contents_of_json, Hv.
Qed.

(** ** Construction and bootstrap *)

(** X10: the constructor stores the namespace and the identity, starts
    with an empty mirror, no subscriber and no watch, and sends the first
    fetch.  When the reply has no error, ["updated"] and then ["ready"] are
    emitted, after the mirror has been filled with the fields that parse (a
    field named [__proto__] apart, which never becomes a key of the mirror);
    when the reply has an error, ["error"] is emitted and ["ready"] never
    is, and nothing fetches again. *)
Theorem constructor_emits_ready `{Runtime}
    JSON_parse JSON_stringify encode id ks err hash :
  let st0 := mkRegistry ks id ∅ false [] [] 0 in
  let reply := resume JSON_parse JSON_stringify encode
                      (OnHgetall (Some EmitReady)) err in
  construct id ks
  = (st0, [Hgetall ("config:" +:+ ks) (OnHgetall (Some EmitReady))]) /\
  (truthy err = false ->
   (exists st2,
      reply (Some hash) st0
      = (st2, [Quit; Emit "updated" ⟦ ⟧; Emit "ready" ⟦ ⟧]) /\
      forall key,
        contents <$> (own (store st2) !! key) = parsed JSON_parse hash key) /\
   reply None st0 = (st0, [Quit; Emit "updated" ⟦ ⟧; Emit "ready" ⟦ ⟧])) /\
  (truthy err = true ->
   forall h, reply h st0 = (st0, [Quit; Emit "error" ⟦err⟧])).
Proof.
  intros st0 reply. subst reply.
  assert (Hwf : wf_listeners st0) by constructor.
  split; [apply pull_unfold|]. split.
  - intros Herr. split.
    + cbn [resume].
      rewrite (hgetall_callback_success JSON_parse JSON_stringify
                 (Some EmitReady) err (Some hash) st0 Hwf Herr).
      destruct (bootstrap_loop JSON_parse hash st0 eq_refl)
        as (_ & Hl & Hs & _).
      cbv zeta in Hl, Hs.
      cbn [call_onSuccess].
      rewrite emit_other;
        [|by unfold wf_listeners; rewrite Hl|done..].
      eexists. split; [reflexivity|]. exact Hs.
    + cbn [resume].
      rewrite (hgetall_callback_success JSON_parse JSON_stringify
                 (Some EmitReady) err None st0 Hwf Herr).
      cbn [call_onSuccess]. by rewrite emit_other.
  - intros Herr h. cbn [resume]. by apply hgetall_callback_failure.
Qed.

Lemma strict_eq_undefined (v : value) :
  v <> VUndefined -> strict_eq VUndefined v = false.
Proof. by destruct v. Qed.

(** X11: a write made while the bootstrap is in flight, for a key other
    than [__proto__] and a value other than [undefined].  [pull] empties
    the mirror at once and sends the request; the key set before the reply
    arrives is in the mirror when the reply is applied.  The reply then
    overwrites it with the fetched field when the field parses, and leaves
    the local value when the hash has no such field or its text does not
    parse; every other key is as after a plain bootstrap. *)
Theorem bootstrap_merges_with_local_write `{Runtime}
    JSON_parse JSON_stringify encode st onSuccess hash key (v : value) err :
  wf_listeners st ->
  v <> VUndefined ->
  key <> "__proto__" ->
  truthy err = false ->
  exists st1 k st3,
    pull onSuccess st = (st1, [Hgetall ("config:" +:+ keyspace st) k]) /\
    k = OnHgetall onSuccess /\
    store st1 = ∅ /\
    own (store (set JSON_stringify key v st1).1) = {[ key := v ]} /\
    resume JSON_parse JSON_stringify encode k err (Some hash)
           (set JSON_stringify key v st1).1
    = (let o := match onSuccess with
                | Some f => call_onSuccess JSON_stringify f st3
                | None => (st3, [])
                end in
       (o.1, Quit :: Emit "updated" ⟦ ⟧ :: o.2)) /\
    contents <$> (own (store st3) !! key)
    = Some (default (contents v) (parsed JSON_parse hash key)) /\
    (forall key', key' <> key ->
       contents <$> (own (store st3) !! key') = parsed JSON_parse hash key').
Proof.
  intros Hwf Hv Hkey Herr.
  set (st1 := with_store ∅ st).
  set (st2 := (set JSON_stringify key v st1).1).
  exists st1, (OnHgetall onSuccess),
    (for_each (Object_keys hash) (apply_field JSON_parse hash) st2).1.
  fold st2.
  split; [apply pull_unfold|]. split; [reflexivity|]. split; [reflexivity|].
  assert (Hread : strict_eq (read key st1) v = false).
  { unfold read. rewrite obj_get_inherited by done.
    change (proto (store st1)) with ProtoObject.
    rewrite inherited_Object_prototype.
    repeat case_bool_decide; try done. by apply strict_eq_undefined. }
  assert (Hst2 : store st2 = mkObj {[ key := v ]} ProtoObject).
  { subst st2. rewrite set_unfold by done. cbn [fst store with_store].
    rewrite obj_set_own by done. reflexivity. }
  assert (Hwf2 : wf_listeners st2).
  { subst st2. by rewrite set_unfold by done. }
  split; [by rewrite Hst2|].
  cbn [resume].
  rewrite (hgetall_callback_success JSON_parse JSON_stringify onSuccess
             err (Some hash) st2 Hwf2 Herr).
  split; [reflexivity|].
  destruct (apply_fields_spec JSON_parse hash (Object_keys hash) st2)
    as (_ & _ & _ & Hs).
  split.
  - rewrite Hs, Hst2 by done. cbn [own].
    rewrite lookup_singleton_eq. simpl.
    destruct (decide (key ∈ Object_keys hash)) as [Hk|Hk].
    + by destruct (parsed JSON_parse hash key).
    + by rewrite not_in_keys_parsed.
  - intros key' Hne.
    destruct (decide (key' = "__proto__")) as [->|Hproto].
    + unfold parsed at 1. rewrite bool_decide_true by done.
      rewrite (apply_fields_proto JSON_parse hash (Object_keys hash) st2);
        [done | apply NoDup_Object_keys | |]; rewrite Hst2; cbn [own proto];
        [by apply lookup_singleton_ne | done].
    + rewrite Hs, Hst2 by done. cbn [own].
      rewrite lookup_singleton_ne by done. simpl.
      destruct (decide (key' ∈ Object_keys hash)) as [Hk|Hk].
      * by destruct (parsed JSON_parse hash key').
      * by rewrite not_in_keys_parsed.
Qed.

(** ** What no method does *)

Lemma subscribes_app t1 t2 :
  subscribes (t1 ++ t2) = (subscribes t1 + subscribes t2)%nat.
Proof. unfold subscribes. by rewrite omap_app, length_app. Qed.

Lemma subscriber_quits_app t1 t2 :
  subscriber_quits (t1 ++ t2)
  = (subscriber_quits t1 + subscriber_quits t2)%nat.
Proof. unfold subscriber_quits. by rewrite omap_app, length_app. Qed.

Lemma dispose_unfold h st :
  dispose h st
  = match watches st !! h with
    | Some w =>
        (with_listeners
           (reverse (remove_first ("clear", ListenerClear h)
              (reverse (reverse (remove_first ("set", ListenerSet h)
                 (reverse (listeners st)))))))
           (with_watches
              (<[h := mkWatchEnv (w_key w) (w_onModified w) true]> (watches st))
              st),
         [Disposed h])
    | None => (st, [])
    end.
Proof.
  unfold dispose. destruct (watches st !! h); [|done].
  rewrite andthen_unfold. cbn [fst snd thrown last].
  by erewrite andthen_nil by reflexivity.
Qed.

(** What [clear] leaves: the registry with another mirror, and a request or
    an exception. *)
Lemma clear_outcome key st :
  exists s e,
    clear key st = (with_store s st, [e]) /\
    (e = Throw \/ e = Hdel ("config:" +:+ keyspace st) key (OnHdel key)).
Proof.
  unfold clear.
  destruct (obj_hasOwnProperty key (store st)) as [[|]|].
  - eexists _, _. split; [reflexivity | by right].
  - exists (store st), (Hdel ("config:" +:+ keyspace st) key (OnHdel key)).
    split; [by destruct st | by right].
  - exists (store st), Throw. split; [by destruct st | by left].
Qed.

Lemma perform_publishes_as_self `{Runtime} JSON_stringify encode c st :
  publishes_as_self encode st (perform JSON_stringify c st).
Proof.
  unfold publishes_as_self.
  destruct c as [key v|key|key cb|h|onSuccess| |]; cbn [perform].
  - unfold set. cbv zeta. destruct (strict_eq _ _); simpl;
      repeat split; repeat constructor.
  - destruct (clear_outcome key st) as (s & e & -> & [->| ->]); simpl;
      repeat split; repeat constructor.
  - rewrite watch_unfold. simpl. repeat split; repeat constructor.
  - rewrite dispose_unfold. destruct (watches st !! h); simpl;
      repeat split; repeat constructor.
  - rewrite pull_unfold. simpl.
    repeat split; repeat constructor.
  - unfold startMonitor. destruct (subscriber st); simpl;
      repeat split; repeat constructor.
  - unfold stopMonitor. destruct (subscriber st); simpl;
      repeat split; repeat constructor.
Qed.

(** X12: no method of the class changes the identity or the namespace of
    the registry, and in every run every message published goes to the
    ["set"] or the ["clear"] channel of that namespace with a payload
    encoded under that identity: the registry never publishes as someone
    else nor into another namespace. *)
Theorem publishes_only_as_self `{Runtime}
    JSON_parse JSON_stringify encode decode inputs st :
  let out := run JSON_parse JSON_stringify encode decode inputs st in
  uniqId out.1 = uniqId st /\
  keyspace out.1 = keyspace st /\
  forall channel payload,
    Publish channel payload ∈ out.2 ->
    exists c args,
      (c = ChannelConfigSet \/ c = ChannelConfigClear) /\
      channel = keySpaceChannel c st /\
      payload = encode (uniqId st) args.
Proof.
  cbv zeta.
  assert (Hself : publishes_as_self encode st
                    (run JSON_parse JSON_stringify encode decode inputs st)).
  { apply (nested_run JSON_parse JSON_stringify encode decode
             (publishes_as_self encode)); clear; unfold publishes_as_self.
    - by intros st.
    - intros st st1 t1 st2 t2 (U1 & K1 & F1) (U2 & K2 & F2). simpl in *.
      rewrite U1, K1 in *. by rewrite Forall_app.
    - intros c st. apply perform_publishes_as_self.
    - intros; simpl; repeat split; repeat constructor.
    - intros; simpl; repeat split; repeat constructor.
    - intros st c args Hc. simpl. repeat split.
      repeat constructor. by exists c, args.
    - intros; simpl; repeat split; repeat constructor.
    - intros; simpl; repeat split; repeat constructor.
    - intros; simpl; repeat split; repeat constructor.
    - by intros.
    - by intros. }
  destruct Hself as (Hu & Hk & Hf). split; [done|]. split; [done|].
  intros channel payload Hin.
  rewrite Forall_forall in Hf. apply (Hf _ Hin).
Qed.

Lemma perform_balanced `{Runtime} JSON_stringify c st :
  balanced st (perform JSON_stringify c st).
Proof.
  unfold balanced.
  destruct c as [key v|key|key cb|h|onSuccess| |]; cbn [perform].
  - unfold set. cbv zeta. by destruct (strict_eq _ _).
  - by destruct (clear_outcome key st) as (s & e & -> & [->| ->]).
  - by rewrite watch_unfold.
  - rewrite dispose_unfold. by destruct (watches st !! h).
  - by rewrite pull_unfold.
  - unfold startMonitor.
    destruct (subscriber st) eqn:Hs; simpl; rewrite ?Hs; reflexivity.
  - unfold stopMonitor.
    destruct (subscriber st) eqn:Hs; simpl; rewrite ?Hs; reflexivity.
Qed.

(** X13: at most one subscriber connection.  [startMonitor] subscribes to
    the two channels only when no subscriber is held, and [stopMonitor]
    disconnects only when one is; so in every run, whoever calls them and
    however often, twice the number of disconnections plus two if a
    subscriber is held at the end equals the number of channel
    subscriptions plus two if one was held at the start. *)
Theorem subscriptions_balanced `{Runtime}
    JSON_parse JSON_stringify encode decode inputs st :
  let out := run JSON_parse JSON_stringify encode decode inputs st in
  (subscribes out.2 + 2 * Nat.b2n (subscriber st)
   = 2 * subscriber_quits out.2 + 2 * Nat.b2n (subscriber out.1))%nat.
Proof.
  cbv zeta.
  apply (nested_run JSON_parse JSON_stringify encode decode balanced);
    clear; unfold balanced; try (by intros).
  - intros st st1 t1 st2 t2 H1 H2. simpl in *.
    rewrite subscribes_app, subscriber_quits_app. lia.
  - intros c st. apply perform_balanced.
Qed.

(** ** The bus and the watches *)

Lemma elem_of_remove_first {A} `{EqDecision A} (x y : A) l :
  y ∈ remove_first x l -> y ∈ l.
Proof.
  induction l as [|z l IH]; simpl; [done|].
  destruct (decide (x = z)); [by right|].
  intros [->|?]%elem_of_cons; [left | right; auto].
Qed.

Lemma elem_of_remove_first_ne {A} `{EqDecision A} (x y : A) l :
  y <> x -> y ∈ l -> y ∈ remove_first x l.
Proof.
  intros Hne. induction l as [|z l IH]; simpl; [done|].
  intros [->|Hin]%elem_of_cons.
  - rewrite decide_False by done. left.
  - destruct (decide (x = z)); [done | right; auto].
Qed.

Lemma NoDup_remove_first {A} `{EqDecision A} (x : A) l :
  NoDup l -> NoDup (remove_first x l).
Proof.
  induction 1 as [|z l Hz Hl IH]; simpl; [constructor|].
  destruct (decide (x = z)); [done|].
  constructor; [|done]. intros Hin. by apply Hz, (elem_of_remove_first x).
Qed.

Lemma not_elem_of_remove_first {A} `{EqDecision A} (x : A) l :
  NoDup l -> x ∉ remove_first x l.
Proof.
  induction 1 as [|z l Hz Hl IH]; simpl; [apply not_elem_of_nil|].
  destruct (decide (x = z)) as [->|Hne]; [done|].
  by intros [?|?]%elem_of_cons.
Qed.

Lemma remove_first_absent {A} `{EqDecision A} (x : A) l :
  x ∉ l -> remove_first x l = l.
Proof.
  induction l as [|z l IH]; simpl; [done|].
  intros [Hne Hl]%not_elem_of_cons.
  rewrite decide_False by done. by rewrite IH.
Qed.

Lemma NoDup_reverse {A} (l : list A) : NoDup l -> NoDup (reverse l).
Proof. intros. by rewrite reverse_Permutation. Qed.

(** [removeListener], as a function of the listener array. *)
Lemma elem_of_remove_last {A} `{EqDecision A} (x y : A) l :
  NoDup l ->
  y ∈ reverse (remove_first x (reverse l)) <-> y ∈ l /\ y <> x.
Proof.
  intros Hnd. rewrite elem_of_reverse. split.
  - intros Hin. split.
    + by apply elem_of_reverse, (elem_of_remove_first x).
    + intros ->. revert Hin. by apply not_elem_of_remove_first, NoDup_reverse.
  - intros [Hin Hne]. by apply elem_of_remove_first_ne, elem_of_reverse.
Qed.

Lemma NoDup_remove_last {A} `{EqDecision A} (x : A) l :
  NoDup l -> NoDup (reverse (remove_first x (reverse l))).
Proof. intros. by apply NoDup_reverse, NoDup_remove_first, NoDup_reverse. Qed.

Lemma remove_last_absent {A} `{EqDecision A} (x : A) l :
  x ∉ l -> reverse (remove_first x (reverse l)) = l.
Proof.
  intros Hx. rewrite remove_first_absent, reverse_involutive; [done|].
  by rewrite elem_of_reverse.
Qed.

Lemma listeners_after_dispose h st w p :
  bus_invariant st ->
  watches st !! h = Some w ->
  p ∈ listeners (dispose h st).1 <-> p ∈ listeners st /\ handle_of p.2 <> h.
Proof.
  intros [Hnd Hinv] Hw. rewrite dispose_unfold, Hw.
  cbn [fst listeners with_listeners with_watches].
  rewrite elem_of_remove_last by by apply NoDup_remove_last.
  rewrite elem_of_remove_last by done.
  split.
  - intros [[Hin H1] H2]. split; [done|].
    destruct (Hinv p Hin) as [He _].
    destruct p as [e [h'|h']]; simpl in *; intros ->; subst e; done.
  - intros [Hin Hh]. repeat split; [done|..]; by intros ->.
Qed.

Lemma perform_keeps_bus `{Runtime} JSON_stringify c st :
  keeps_bus st (perform JSON_stringify c st).
Proof.
  unfold keeps_bus.
  destruct c as [key v|key|key cb|h|onSuccess| |]; cbn [perform].
  - unfold set. cbv zeta. by destruct (strict_eq _ _).
  - by destruct (clear_outcome key st) as (s & e & -> & _).
  - rewrite watch_unfold. intros [Hnd Hinv].
    split; cbn [fst listeners watches with_listeners with_watches].
    + apply NoDup_app. split; [done|]. split.
      * intros p Hp Hin. destruct (Hinv p Hp) as [_ Hlt].
        apply elem_of_cons in Hin as [->|Hin]; [simpl in Hlt; lia|].
        apply list_elem_of_singleton in Hin as ->. simpl in Hlt. lia.
      * apply NoDup_cons. split; [|apply NoDup_singleton].
        by intros [=]%list_elem_of_singleton.
    + intros p. rewrite length_app. simpl.
      intros [Hp|Hp]%elem_of_app.
      * destruct (Hinv p Hp). split; [done | lia].
      * apply elem_of_cons in Hp as [->|Hp]; [simpl; split; [done | lia]|].
        apply list_elem_of_singleton in Hp as ->. simpl. split; [done | lia].
  - intros Hbus. pose proof Hbus as [Hnd Hinv].
    destruct (watches st !! h) as [w|] eqn:Hw;
      [|by rewrite dispose_unfold, Hw].
    split.
    + rewrite dispose_unfold, Hw.
      cbn [fst listeners with_listeners with_watches].
      by apply NoDup_remove_last, NoDup_remove_last.
    + intros p Hp.
      apply (listeners_after_dispose h st w p Hbus Hw) in Hp as [Hp _].
      rewrite dispose_unfold, Hw.
      cbn [fst watches with_listeners with_watches].
      rewrite length_insert. by apply Hinv.
  - by rewrite pull_unfold.
  - unfold startMonitor. by destruct (subscriber st).
  - unfold stopMonitor. by destruct (subscriber st).
Qed.

Lemma bus_invariant_run `{Runtime} JSON_parse JSON_stringify encode decode
    inputs st :
  bus_invariant st ->
  bus_invariant (run JSON_parse JSON_stringify encode decode inputs st).1.
Proof.
  apply (nested_run JSON_parse JSON_stringify encode decode keeps_bus);
    clear; unfold keeps_bus; try (by intros); try (by eauto).
  intros c st. apply perform_keeps_bus.
Qed.

(** X14: on every registry that the constructor and a run produce, no
    closure of a watch is registered twice on the bus, each one is
    registered under the event name [watch] gave it, and each belongs to a
    watch that exists. *)
Theorem bus_invariant_reachable `{Runtime}
    JSON_parse JSON_stringify encode decode id ks inputs :
  bus_invariant
    (run JSON_parse JSON_stringify encode decode inputs (construct id ks).1).1.
Proof.
  apply bus_invariant_run. split; [constructor|].
  by intros p ?%elem_of_nil.
Qed.

(** X15: the disposer detaches its own watch and nothing else.  On a
    registry that satisfies the invariant of the bus, after the disposer of
    watch [h] the closures left on the bus are those that were there and
    belong to other watches; the flag of [h] is up; the other watches, the
    mirror and the subscriber are as before; and nothing is sent or
    emitted. *)
Theorem dispose_detaches_only_its_watch st h w :
  bus_invariant st ->
  watches st !! h = Some w ->
  let st' := (dispose h st).1 in
  (forall p, p ∈ listeners st' <-> p ∈ listeners st /\ handle_of p.2 <> h) /\
  ended h st' /\
  (forall h', h' <> h -> watches st' !! h' = watches st !! h') /\
  store st' = store st /\ subscriber st' = subscriber st /\
  (dispose h st).2 = [Disposed h].
Proof.
  intros Hbus Hw st'. split.
  { intros p. by apply (listeners_after_dispose h st w). }
  subst st'. rewrite dispose_unfold, Hw.
  cbn [fst snd watches store subscriber with_listeners with_watches].
  repeat split.
  - eexists. split;
      [apply list_lookup_insert_eq; by eapply lookup_lt_Some | reflexivity].
  - intros h' Hne. by apply list_lookup_insert_ne.
Qed.

(** X16: calling a disposer again changes nothing: on a registry that
    satisfies the invariant of the bus, the registry after two calls is the
    registry after one. *)
Theorem dispose_twice st h :
  bus_invariant st ->
  (dispose h (dispose h st).1).1 = (dispose h st).1.
Proof.
  intros Hbus.
  destruct (watches st !! h) as [w|] eqn:Hw.
  - assert (Hls : forall p, p ∈ listeners (dispose h st).1 ->
                            handle_of p.2 <> h).
    { intros p Hp.
      by apply (listeners_after_dispose h st w p Hbus Hw) in Hp as [_ ?]. }
    rewrite (dispose_unfold h (dispose h st).1).
    assert (Hw' : watches (dispose h st).1 !! h
                  = Some (mkWatchEnv (w_key w) (w_onModified w) true)).
    { rewrite dispose_unfold, Hw. cbn [fst watches with_listeners with_watches].
      apply list_lookup_insert_eq. by eapply lookup_lt_Some. }
    rewrite Hw'. cbn [fst w_key w_onModified].
    rewrite (remove_last_absent ("set", ListenerSet h));
      [|intros Hin; by apply (Hls _ Hin)].
    rewrite (remove_last_absent ("clear", ListenerClear h));
      [|intros Hin; by apply (Hls _ Hin)].
    rewrite list_insert_id by done.
    by destruct (dispose h st).1.
  - rewrite (dispose_unfold h st), Hw. cbn [fst].
    by rewrite dispose_unfold, Hw.
Qed.

(** ** Watches and keys *)

Lemma handles_invoked_invoke h cb arg t :
  handles_invoked (Invoke h cb arg :: t) = h :: handles_invoked t.
Proof. reflexivity. Qed.

Lemma handles_invoked_emit event args t :
  handles_invoked (Emit event args :: t) = handles_invoked t.
Proof. reflexivity. Qed.

Lemma calls_keep_key `{Runtime} JSON_stringify h k calls st :
  keeps_key h k st (for_each calls (perform JSON_stringify) st).
Proof.
  apply (sat_for_each (keeps_key h k)); unfold keeps_key.
  - by intros.
  - intros st0 st1 t1 st2 t2 [K1 I1] [K2 I2]. simpl in *.
    split; [auto|]. by rewrite handles_invoked_app, I1, I2.
  - intros c. apply (sat_perform JSON_stringify (keeps_key h k));
      clear; unfold keeps_key, watches_key; simpl.
    + by intros.
    + intros st0 st1 t1 st2 t2 [K1 I1] [K2 I2]. simpl in *.
      split; [auto|]. by rewrite handles_invoked_app, I1, I2.
    + by intros st [].
    + by intros.
    + by intros.
    + by intros.
    + by intros.
    + intros st key cb. split; [|done].
      intros (w & Hw & Hk). exists w. split; [|done].
      by apply lookup_app_l_Some.
    + intros st h' w Hw. split; [|done].
      intros (w0 & Hw0 & Hk).
      destruct (decide (h' = h)) as [->|Hne].
      * eexists. split;
          [apply list_lookup_insert_eq; by eapply lookup_lt_Some|].
        simpl. congruence.
      * exists w0. by rewrite list_lookup_insert_ne.
Qed.

Lemma listeners_skip_other_key `{Runtime} JSON_stringify h k ls args st :
  watches_key h k st ->
  strict_eq (VStr k) (parameter args 0) = false ->
  let out := for_each ls (fun l => run_listener JSON_stringify l args) st in
  watches_key h k out.1 /\ h ∉ handles_invoked out.2.
Proof.
  intros Hk Hne. cbv zeta. revert st Hk.
  induction ls as [|l ls IH]; intros st Hk.
  { split; [done | apply not_elem_of_nil]. }
  rewrite for_each_cons, andthen_unfold.
  assert (Hl : watches_key h k (run_listener JSON_stringify l args st).1 /\
               h ∉ handles_invoked (run_listener JSON_stringify l args st).2).
  { assert (Hinv : forall h' w arg,
              watches st !! h' = Some w ->
              strict_eq (VStr (w_key w)) (parameter args 0) = true ->
              watches_key h k (invoke JSON_stringify h' (w_onModified w) arg st).1
              /\ h ∉ handles_invoked
                      (invoke JSON_stringify h' (w_onModified w) arg st).2).
    { intros h' w arg Hw Heq. rewrite invoke_unfold. cbv zeta. cbn [fst snd].
      destruct (calls_keep_key JSON_stringify h k
                  (callback_body (w_onModified w) arg) st) as [Hkeep Hnone].
      split; [by apply Hkeep|].
      rewrite handles_invoked_invoke, Hnone.
      intros Hin%list_elem_of_singleton. subst h'.
      destruct Hk as (w0 & Hw0 & Hk0). congruence. }
    unfold run_listener.
    destruct l as [h'|h'];
      (destruct (watches st !! h') as [w|] eqn:Hw;
         [|split; [done | apply not_elem_of_nil]];
       destruct (w_ended w); [split; [done | apply not_elem_of_nil]|];
       destruct (strict_eq (VStr (w_key w)) (parameter args 0)) eqn:Heq;
         [by apply Hinv | split; [done | apply not_elem_of_nil]]). }
  destruct Hl as [Hk1 Hn1].
  destruct (thrown _); [done|]. cbn [fst snd].
  destruct (IH _ Hk1) as [Hk2 Hn2].
  split; [done|]. by rewrite handles_invoked_app, not_elem_of_app.
Qed.

Lemma emit_skips_other_key `{Runtime} JSON_stringify h k event args st :
  watches_key h k st ->
  strict_eq (VStr k) (parameter args 0) = false ->
  watches_key h k (emit JSON_stringify event args st).1 /\
  h ∉ handles_invoked (emit JSON_stringify event args st).2.
Proof.
  intros Hk Hne. rewrite emit_unfold. cbv zeta. cbn [fst snd].
  destruct (listeners_skip_other_key JSON_stringify h k
              (listeners_of event st) args st Hk Hne) as [Hk1 Hn1].
  split; [done|]. by rewrite handles_invoked_emit.
Qed.

(** X17: a watch hears only its own key.  A ["set"] notification for
    [key], with its ["updated"], does not invoke the callback of a watch
    on another key, whatever the other callbacks do while the notification
    is delivered. *)
Theorem watch_filters_by_key `{Runtime} JSON_stringify st h w key v previous :
  watches st !! h = Some w ->
  w_key w <> key ->
  h ∉ handles_invoked (emitSet JSON_stringify (VStr key) v previous st).2.
Proof.
  intros Hw Hne.
  assert (Hk : watches_key h (w_key w) st) by by exists w.
  unfold emitSet, emitUpdated. rewrite andthen_unfold.
  destruct (emit_skips_other_key JSON_stringify h (w_key w) "set"
              ⟦VStr key; v; previous⟧ st Hk) as [Hk1 Hn1].
  { simpl. by rewrite bool_decide_false. }
  destruct (thrown _); [done|]. cbn [snd].
  rewrite handles_invoked_app, not_elem_of_app. split; [done|].
  by apply (emit_skips_other_key JSON_stringify h (w_key w)).
Qed.

(** X18: a watch hears the writes of other instances.  When
    [watch(key, cb)] is called on a registry with no listener on the bus,
    so that it is the only watch registered, a ["set"] message of another
    sender for [key] invokes the callback with the new value, right after
    ["set"] is emitted, and the previous value given to the listeners of
    ["set"] is what the mirror gave for the key before the write. *)
Theorem inbound_set_reaches_watch `{Runtime} JSON_stringify decode st key cb
    message m j jp :
  listeners st = [] ->
  decode message = Some m ->
  m_sender m <> uniqId st ->
  m_arguments m = [JStr key; j; jp] ->
  let st1 := (watch key cb st).1 in
  exists rest,
    (onSubscriberMessage JSON_stringify decode
       ("ConfigSet:" +:+ keyspace st1) message st1).2
    = Emit "set" ⟦VStr key; of_json (heap_next st + 1) j; read key st⟧
      :: Invoke (length (watches st)) (callback_id cb)
                (of_json (heap_next st + 1) j)
      :: rest.
Proof.
  intros Hl Hm Hs Hargs st1. subst st1. rewrite watch_unfold. cbn [fst].
  erewrite onSubscriberMessage_set by done.
  unfold emitSet. rewrite andthen_unfold.
  match goal with |- context [emit _ "set" ?args ?s] =>
    destruct (emit_set_invokes JSON_stringify s (length (watches st))
                (mkWatchEnv key cb false) []
                (of_json (heap_next st + 1) j) (read key st))
      as [rest Hrest] end.
  - unfold listeners_of. simpl. by rewrite Hl.
  - simpl. by apply list_lookup_middle.
  - done.
  - cbn [w_key w_onModified] in Hrest.
    unfold read in *. cbn [store heap_next with_listeners with_watches] in *.
    destruct (thrown _); cbn [snd]; rewrite Hrest; simpl; eauto.
Qed.

(** X19: a watch hears acknowledged local writes.  When [watch(key, cb)] is
    called on a registry with no listener on the bus, so that it is the only
    watch registered, the successful completion of a [set(key, v)]
    publishes the change, emits ["set"] with the key, [v] and the previous
    value, and then invokes the callback with [v]. *)
Theorem set_notification_reaches_watch `{Runtime}
    JSON_stringify encode st key cb (v : value) previous :
  listeners st = [] ->
  let st1 := (watch key cb st).1 in
  exists rest,
    (hset_callback JSON_stringify encode key v previous VNull st1).2
    = Publish ("ConfigSet:" +:+ keyspace st1)
              (encode (uniqId st1) ⟦VStr key; v; previous⟧)
      :: Quit
      :: Emit "set" ⟦VStr key; v; previous⟧
      :: Invoke (length (watches st)) (callback_id cb) v
      :: rest.
Proof.
  intros Hl st1.
  destruct (emit_set_invokes JSON_stringify st1 (length (watches st))
              (mkWatchEnv key cb false) [] v previous) as [rest Hrest].
  - subst st1. rewrite watch_unfold. unfold listeners_of. simpl.
    by rewrite Hl.
  - subst st1. rewrite watch_unfold. simpl.
    by apply list_lookup_middle.
  - done.
  - rewrite hset_callback_unfold. cbn [truthy]. cbv zeta. cbn [snd].
    unfold emitSet. rewrite andthen_unfold.
    cbn [w_key w_onModified] in Hrest.
    destruct (thrown _); cbn [snd]; rewrite Hrest; simpl; eauto.
Qed.

(** ** The key [__proto__] *)

(** X23: on a mirror object as [{}] creates it, with no own property
    [__proto__], [set("__proto__", v)] for a [v] that is neither an object
    nor [null] is not a no-op and yet leaves the registry exactly as it
    was: the [hset] request is sent, with [Object.prototype] as previous
    value, the key is not mirrored, and [get("__proto__", d)] still returns
    the default.  The same call made again sends the same request
    again. *)
Theorem proto_key_is_never_mirrored `{Runtime} JSON_stringify st (v : value) d :
  intact (store st) ->
  own (store st) !! "__proto__" = None ->
  (forall r c, v <> VObject r c) ->
  v <> VNull ->
  let request := Hset ("config:" +:+ keyspace st) "__proto__"
                      (JSON_stringify v)
                      (OnHset "__proto__" v (Native "Object.prototype")) in
  set JSON_stringify "__proto__" v st = (st, [request]) /\
  set JSON_stringify "__proto__" v (set JSON_stringify "__proto__" v st).1
  = (st, [request]) /\
  get "__proto__" d st = Some (Val d).
Proof.
  intros Hint Hown Hobj Hnull request. pose proof Hint as [Hproto _].
  assert (Hset : set JSON_stringify "__proto__" v st = (st, [request])).
  { assert (Hread : read "__proto__" st = Native "Object.prototype").
    { unfold read. by rewrite obj_get_inherited, Hproto. }
    rewrite set_unfold by by rewrite Hread.
    rewrite Hread, obj_set_setter by (by rewrite ?Hproto).
    assert (Hsame : proto_set_to v (proto (store st)) = proto (store st)).
    { destruct v; try done. by destruct (Hobj ref content). }
    rewrite Hsame, obj_eta. by destruct st. }
  split; [done|]. split; [by rewrite Hset|].
  rewrite get_found by by apply intact_finds. by rewrite Hown.
Qed.

(** X24: on a mirror object as [{}] creates it, with no own property
    [__proto__], [set("__proto__", v)] for an array, an object or [null]
    sends the request and, instead of mirroring the key, replaces the
    prototype of the mirror.  After [set("__proto__", null)], and after
    [set("__proto__", o)] for an object [o] with a field [hasOwnProperty],
    [get] throws for every key and [clear] throws before it sends
    anything. *)
Theorem proto_key_replaces_prototype `{Runtime} JSON_stringify st (v : value)
    key d :
  intact (store st) ->
  own (store st) !! "__proto__" = None ->
  (v = VNull \/ exists r c, v = VObject r c) ->
  let out := set JSON_stringify "__proto__" v st in
  out.2 = [Hset ("config:" +:+ keyspace st) "__proto__" (JSON_stringify v)
                (OnHset "__proto__" v (Native "Object.prototype"))] /\
  own (store out.1) = own (store st) /\
  proto (store out.1) = proto_set_to v ProtoObject /\
  ((v = VNull \/
    exists r c, v = VObject r c /\ has_field c "hasOwnProperty" = true) ->
   get key d out.1 = None /\ clear key out.1 = (out.1, [Throw])).
Proof.
  intros Hint Hown Hv out. pose proof Hint as [Hproto Hhas].
  assert (Hread : read "__proto__" st = Native "Object.prototype").
  { unfold read. by rewrite obj_get_inherited, Hproto. }
  subst out. rewrite set_unfold by by rewrite Hread.
  rewrite Hread, obj_set_setter, Hproto by (by rewrite ?Hproto).
  cbn [fst snd store with_store own proto].
  split; [done|]. split; [done|]. split; [done|].
  intros Hthrows.
  assert (Hf : finds_hasOwnProperty
                 (mkObj (own (store st)) (proto_set_to v ProtoObject))
               = false).
  { unfold finds_hasOwnProperty. cbn [own proto]. rewrite Hhas.
    destruct Hthrows as [->|(r & c & -> & Hfield)]; [done|].
    simpl. by rewrite Hfield. }
  split.
  - by apply get_not_found.
  - unfold clear, obj_hasOwnProperty. cbn [store with_store]. by rewrite Hf.
Qed.

(** ** The further properties at concrete inputs *)

Module MoreExamples.

Import Samples Fixtures.

Lemma wf_listeners_nil st : listeners st = [] -> wf_listeners st.
Proof. unfold wf_listeners. intros ->. constructor. Defined.

Lemma intact_new st : store st = ∅ -> intact (store st).
Proof. intros ->. by split. Defined.

Lemma get_example :
  intact (store fresh) /\
  get "missing" (VStr "fallback") fresh = Some (Val (VStr "fallback")) /\
  get "k" (VStr "fallback") (set Demo.stringify "k" VNull fresh).1
  = Some (Val VNull).
Proof.
  assert (Hint : intact (store fresh)) by by apply intact_new.
  split; [exact Hint|].
  destruct (get_present_or_default Demo.stringify fresh "missing"
              (VStr "fallback") Hint) as (_ & Habsent & _).
  destruct (get_present_or_default Demo.stringify fresh "k"
              (VStr "fallback") Hint) as (_ & _ & Hnull).
  split; [by apply Habsent | by apply Hnull].
Defined.

Lemma clear_absent_example :
  finds_hasOwnProperty (store fresh) = true /\
  own (store fresh) !! "k" = None /\
  clear "k" fresh = (fresh, [Hdel "config:global" "k" (OnHdel "k")]) /\
  (resume Demo.parse Demo.stringify Demo.encode (OnHdel "k")
          VNull None fresh).2
  = [Publish "ConfigClear:global" (Demo.encode "me" ⟦VStr "k"⟧);
     Quit; Emit "cleared" ⟦VStr "k"⟧; Emit "updated" ⟦ ⟧].
Proof.
  split; [reflexivity|]. split; [reflexivity|].
  destruct (clear_absent_still_propagates Demo.parse Demo.stringify
              Demo.encode fresh "k" fresh VNull None eq_refl eq_refl)
    as (Hclear & _ & _ & _ & Hlog & _).
  split; [exact Hclear|]. apply Hlog; [reflexivity|].
  by apply wf_listeners_nil.
Defined.

Lemma inbound_set_example :
  Demo.decode other_message
  = Some (mkMessage "other" [JStr "k"; JNum 5; JNum 4]) /\
  own (store (onSubscriberMessage Demo.stringify Demo.decode
                "ConfigSet:global" other_message after_set).1)
  = <["k" := VNum 5]> (own (store after_set)) /\
  (onSubscriberMessage Demo.stringify Demo.decode "ConfigSet:global"
     other_message after_set).2
  = [Emit "set" ⟦VStr "k"; VNum 5; VNum 1⟧; Emit "updated" ⟦ ⟧].
Proof.
  assert (Hd : Demo.decode other_message
               = Some (mkMessage "other" [JStr "k"; JNum 5; JNum 4]))
    by (vm_compute; reflexivity).
  split; [exact Hd|].
  destruct (inbound_set_overwrites Demo.stringify Demo.decode after_set
              other_message (mkMessage "other" [JStr "k"; JNum 5; JNum 4])
              "k" (JNum 5) (JNum 4) Hd ltac:(done) eq_refl ltac:(done))
    as (_ & _ & _ & _ & Hquiet).
  by apply Hquiet.
Defined.

Lemma get_after_set_example :
  intact (store fresh) /\
  get "j" (VStr "fallback") (set Demo.stringify "k" (VNum 1) fresh).1
  = get "j" (VStr "fallback") fresh.
Proof.
  assert (Hint : intact (store fresh)) by by apply intact_new.
  split; [exact Hint|].
  destruct (get_after_set Demo.stringify fresh "k" (VNum 1) (VStr "fallback")
              Hint ltac:(done) ltac:(done)) as (_ & _ & Hothers).
  by apply Hothers.
Defined.

Lemma get_after_clear_example :
  intact (store after_set) /\
  (clear "k" after_set).2 = [Hdel "config:global" "k" (OnHdel "k")] /\
  get "k" (VStr "fallback") (clear "k" after_set).1
  = Some (Val (VStr "fallback")).
Proof.
  assert (Hint : intact (store after_set)) by by split.
  split; [exact Hint|].
  destruct (get_after_clear Demo.stringify after_set "k" (VNum 1)
              (VStr "fallback") Hint) as (Hlog & Hget & _).
  split; [exact Hlog | exact Hget].
Defined.

Lemma failed_persistence_example :
  wf_listeners fresh /\
  strict_eq (read "k" fresh) (VNum 1) = false /\
  truthy (VStr "ECONNREFUSED") = true /\
  own (store
         (resume Demo.parse Demo.stringify Demo.encode
            (OnHset "k" (VNum 1) (read "k" fresh)) (VStr "ECONNREFUSED") None
            (set Demo.stringify "k" (VNum 1) fresh).1).1) !! "k"
  = Some (VNum 1).
Proof.
  assert (Hwf : wf_listeners fresh) by by apply wf_listeners_nil.
  split; [exact Hwf|]. split; [reflexivity|]. split; [reflexivity|].
  pose proof (failed_persistence_keeps_mirror Demo.parse Demo.stringify
                Demo.encode fresh "k" (VNum 1)
                (VStr "ECONNREFUSED") None Hwf eq_refl eq_refl) as Hkeep.
  cbv zeta in Hkeep. destruct Hkeep as (_ & _ & Hown & _).
  by apply Hown.
Defined.

Lemma inbound_clear_example :
  Demo.decode alice_clears_x = Some (mkMessage "alice" [JStr "x"]) /\
  own (store (onSubscriberMessage Demo.stringify Demo.decode
                "ConfigClear:global" alice_clears_x bob_with_x).1) !! "x"
  = None.
Proof.
  assert (Hd : Demo.decode alice_clears_x = Some (mkMessage "alice" [JStr "x"]))
    by (vm_compute; reflexivity).
  split; [exact Hd|].
  assert (Hwf : wf_listeners bob_with_x) by by apply wf_listeners_nil.
  pose proof (inbound_clear_removes Demo.stringify Demo.decode bob_with_x
                alice_clears_x (mkMessage "alice" [JStr "x"]) "x" []
                (VStr "fallback") Hd ltac:(done) eq_refl Hwf) as Hclear.
  cbv zeta in Hclear. exact (proj1 (proj2 Hclear)).
Defined.

Lemma foreign_namespace_example :
  keyspace carol <> "global" /\
  store (onSubscriberMessage Demo.stringify Demo.decode
           ("ConfigSet" +:+ ":" +:+ "global") alice_sets_x carol).1
  = store carol.
Proof.
  assert (Hks : keyspace carol <> "global") by done.
  split; [exact Hks|].
  pose proof (foreign_namespace_ignored Demo.stringify Demo.decode carol
                ChannelConfigSet "global" alice_sets_x Hks (or_introl eq_refl))
    as Hforeign.
  cbv zeta in Hforeign. exact (proj1 Hforeign).
Defined.

Lemma inbound_set_without_value_example :
  Demo.decode alice_clears_x = Some (mkMessage "alice" [JStr "x"]) /\
  own (store (onSubscriberMessage Demo.stringify Demo.decode
                "ConfigSet:global" alice_clears_x bob).1) !! "x"
  = Some VUndefined.
Proof.
  assert (Hd : Demo.decode alice_clears_x = Some (mkMessage "alice" [JStr "x"]))
    by (vm_compute; reflexivity).
  split; [exact Hd|].
  pose proof (inbound_set_without_value Demo.stringify Demo.decode bob
                alice_clears_x (mkMessage "alice" [JStr "x"]) "x"
                (VStr "fallback") Hd ltac:(done) eq_refl eq_refl ltac:(done))
    as Hset.
  cbv zeta in Hset. exact (proj1 Hset).
Defined.

Lemma last_delivered_wins_example :
  Demo.decode alice_sets_x
  = Some (mkMessage "alice" [JStr "x"; JNum 42; JNull]) /\
  Demo.decode alice_sets_x_again
  = Some (mkMessage "alice" [JStr "x"; JNum 43; JNum 42]) /\
  own (store (run Demo.parse Demo.stringify Demo.encode Demo.decode
                [Inbound "ConfigSet:global" alice_sets_x;
                 Inbound "ConfigSet:global" alice_sets_x_again] bob).1) !! "x"
  = Some (VNum 43).
Proof.
  assert (H1 : Demo.decode alice_sets_x
               = Some (mkMessage "alice" [JStr "x"; JNum 42; JNull]))
    by (vm_compute; reflexivity).
  assert (H2 : Demo.decode alice_sets_x_again
               = Some (mkMessage "alice" [JStr "x"; JNum 43; JNum 42]))
    by (vm_compute; reflexivity).
  split; [exact H1|]. split; [exact H2|].
  pose proof (last_delivered_wins Demo.parse Demo.stringify Demo.encode
                Demo.decode bob
                alice_sets_x (mkMessage "alice" [JStr "x"; JNum 42; JNull])
                alice_sets_x_again
                (mkMessage "alice" [JStr "x"; JNum 43; JNum 42])
                "x" (JNum 42) JNull (JNum 43) (JNum 42) H1 ltac:(done) eq_refl
                H2 ltac:(done) eq_refl eq_refl ltac:(done)) as Hlast.
  cbv zeta in Hlast. exact (proj1 Hlast).
Defined.

Lemma reordered_acknowledgements_example :
  strict_eq (read "x" alice) (VNum 1) = false /\
  strict_eq (VNum 1) (VNum 2) = false /\
  own (store
         (run Demo.parse Demo.stringify Demo.encode Demo.decode
            [Api (CallSet "x" (VNum 1)); Api (CallSet "x" (VNum 2));
             Reply (OnHset "x" (VNum 2) (VNum 1)) VNull None;
             Reply (OnHset "x" (VNum 1) (read "x" alice)) VNull None]
            alice).1) !! "x"
  = Some (VNum 2).
Proof.
  split; [reflexivity|]. split; [reflexivity|].
  pose proof (reordered_acknowledgements Demo.parse Demo.stringify
                Demo.encode Demo.decode alice "x" (VNum 1) (VNum 2)
                eq_refl ltac:(done) eq_refl eq_refl) as Hreordered.
  cbv zeta in Hreordered. exact (proj1 Hreordered).
Defined.

Lemma peer_converges_example :
  Demo.decode alice_sets_x
  = Some (mkMessage "alice" [JStr "x"; JNum 42; JNull]) /\
  contents <$>
    (own (store (onSubscriberMessage Demo.stringify Demo.decode
                   "ConfigSet:global" alice_sets_x bob).1) !! "x")
  = Some (contents (VNum 42)).
Proof.
  assert (Hd : Demo.decode alice_sets_x
               = Some (mkMessage "alice" [JStr "x"; JNum 42; JNull]))
    by (vm_compute; reflexivity).
  split; [exact Hd|].
  pose proof (peer_converges Demo.stringify Demo.encode Demo.decode
                alice bob "x" (VNum 42) VUndefined VNull
                (mkMessage "alice" [JStr "x"; JNum 42; JNull])
                (JNum 42) JNull eq_refl ltac:(done) eq_refl ltac:(done)
                Hd eq_refl eq_refl eq_refl) as Hpeer.
  cbv zeta in Hpeer. exact (proj1 (proj2 Hpeer)).
Defined.

Lemma bootstrap_merge_example :
  wf_listeners fresh /\
  VNum 9 <> VUndefined /\
  exists st3,
    resume Demo.parse Demo.stringify Demo.encode (OnHgetall None) VNull
      (Some sample_hash)
      (set Demo.stringify "c" (VNum 9) (pull None fresh).1).1
    = (st3, [Quit; Emit "updated" ⟦ ⟧]) /\
    contents <$> (own (store st3) !! "c") = Some (VNum 9) /\
    contents <$> (own (store st3) !! "a") = Some (VNum 1).
Proof.
  assert (Hwf : wf_listeners fresh) by by apply wf_listeners_nil.
  split; [exact Hwf|]. split; [done|].
  destruct (bootstrap_merges_with_local_write Demo.parse Demo.stringify
              Demo.encode fresh None sample_hash "c" (VNum 9) VNull
              Hwf ltac:(done) ltac:(done) eq_refl)
    as (st1 & k & st3 & Hpull & Hk & _ & _ & Hout & Hc & Hothers).
  change (pull None fresh)
    with (fresh, [Hgetall "config:global" (OnHgetall None)]) in Hpull.
  injection Hpull as <- <-.
  exists st3. split; [exact Hout|]. split; [exact Hc|].
  by apply Hothers.
Defined.

Lemma bus_invariant_two_watches : bus_invariant two_watches.
Proof.
  apply (bus_invariant_run Demo.parse Demo.stringify Demo.encode Demo.decode
           [Api (CallWatch "k" log_only); Api (CallWatch "j" log_only)] alice).
  split; [constructor|]. by intros p ?%elem_of_nil.
Defined.

Lemma dispose_detaches_example :
  bus_invariant two_watches /\
  watches two_watches !! 0%nat = Some (mkWatchEnv "k" log_only false) /\
  watches (dispose 0 two_watches).1 !! 1%nat = watches two_watches !! 1%nat.
Proof.
  split; [exact bus_invariant_two_watches|]. split; [reflexivity|].
  pose proof (dispose_detaches_only_its_watch two_watches 0
                (mkWatchEnv "k" log_only false)
                bus_invariant_two_watches eq_refl) as Hdetach.
  cbv zeta in Hdetach. destruct Hdetach as (_ & _ & Hothers & _).
  by apply Hothers.
Defined.

Lemma dispose_twice_example :
  bus_invariant two_watches /\
  (dispose 0 (dispose 0 two_watches).1).1 = (dispose 0 two_watches).1.
Proof.
  split; [exact bus_invariant_two_watches|].
  exact (dispose_twice two_watches 0 bus_invariant_two_watches).
Defined.

Lemma watch_filters_example :
  watches two_watches !! 1%nat = Some (mkWatchEnv "j" log_only false) /\
  1%nat ∉ handles_invoked
            (emitSet Demo.stringify (VStr "k") (VNum 1) VUndefined
               two_watches).2.
Proof.
  split; [reflexivity|].
  apply (watch_filters_by_key Demo.stringify two_watches 1
           (mkWatchEnv "j" log_only false) "k" (VNum 1) VUndefined);
    [reflexivity | done].
Defined.

Lemma inbound_set_reaches_watch_example :
  listeners bob = [] /\
  Demo.decode alice_sets_x
  = Some (mkMessage "alice" [JStr "x"; JNum 42; JNull]) /\
  exists rest,
    (onSubscriberMessage Demo.stringify Demo.decode "ConfigSet:global"
       alice_sets_x (watch "x" log_only bob).1).2
    = Emit "set" ⟦VStr "x"; VNum 42; VUndefined⟧
      :: Invoke 0 3 (VNum 42)
      :: rest.
Proof.
  assert (Hd : Demo.decode alice_sets_x
               = Some (mkMessage "alice" [JStr "x"; JNum 42; JNull]))
    by (vm_compute; reflexivity).
  split; [reflexivity|]. split; [exact Hd|].
  apply (inbound_set_reaches_watch Demo.stringify Demo.decode bob "x"
           log_only alice_sets_x
           (mkMessage "alice" [JStr "x"; JNum 42; JNull]) (JNum 42) JNull);
    done.
Defined.

Lemma set_reaches_watch_example :
  listeners alice = [] /\
  exists rest,
    (hset_callback Demo.stringify Demo.encode "x" (VNum 1) VUndefined VNull
       (watch "x" log_only alice).1).2
    = Publish "ConfigSet:global"
              (Demo.encode "alice" ⟦VStr "x"; VNum 1; VUndefined⟧)
      :: Quit
      :: Emit "set" ⟦VStr "x"; VNum 1; VUndefined⟧
      :: Invoke 0 3 (VNum 1)
      :: rest.
Proof.
  split; [reflexivity|].
  exact (set_notification_reaches_watch Demo.stringify Demo.encode alice
           "x" log_only (VNum 1) VUndefined eq_refl).
Defined.

Lemma proto_key_example :
  intact (store fresh) /\
  own (store fresh) !! "__proto__" = None /\
  set Demo.stringify "__proto__" (VNum 1) fresh
  = (fresh, [Hset "config:global" "__proto__" (Some "1")
                  (OnHset "__proto__" (VNum 1) (Native "Object.prototype"))]) /\
  get "__proto__" (VStr "fallback") fresh = Some (Val (VStr "fallback")).
Proof.
  assert (Hint : intact (store fresh)) by by apply intact_new.
  split; [exact Hint|]. split; [reflexivity|].
  destruct (proto_key_is_never_mirrored Demo.stringify fresh (VNum 1)
              (VStr "fallback") Hint eq_refl ltac:(done) ltac:(done))
    as (Hset & _ & Hget).
  split; [exact Hset | exact Hget].
Defined.

Lemma proto_null_example :
  intact (store fresh) /\
  own (store fresh) !! "__proto__" = None /\
  proto (store (set Demo.stringify "__proto__" VNull fresh).1) = ProtoNull /\
  get "k" (VStr "fallback") (set Demo.stringify "__proto__" VNull fresh).1
  = None.
Proof.
  assert (Hint : intact (store fresh)) by by apply intact_new.
  split; [exact Hint|]. split; [reflexivity|].
  destruct (proto_key_replaces_prototype Demo.stringify fresh VNull "k"
              (VStr "fallback") Hint eq_refl (or_introl eq_refl))
    as (_ & _ & Hproto & Hthrows).
  split; [exact Hproto|]. by apply Hthrows; left.
Defined.

End MoreExamples.
